(** * aedis: response adapters, RESP3 framing and the connection queue

    A shallow embedding of [include/aedis/response.hpp] (the response
    adapters driven by the RESP3 parser) together with the parts of the
    parser framing and of the connection engine that the properties
    below refer to.

    Conventions.
    - [std::string] and [std::string_view] are [string]; a byte is an
      [ascii].
    - C++ integers are [Z]; the range of an integral type is carried by
      a record [charconv.integral].
    - A member function of a response class is a function from the
      object's state to a result [res]: either the new state or the
      exception that the C++ code throws. *)

From Stdlib Require Import ZArith String Ascii List Bool Lia.
From Stdlib Require Import DecimalString DecimalZ DecimalPos DecimalN.
Import ListNotations.

Local Open Scope string_scope.
Local Open Scope list_scope.
Local Open Scope Z_scope.

(** ** Exceptions and results *)

(** What a member function can raise: [std::runtime_error] with its
    message, a failed [assert] with the asserted expression, or the
    [std::length_error] of [std::vector::reserve], whose message is the
    library's own. *)
Inductive exn : Type :=
| runtime_error (what : string)
| assertion_failure (expr : string)
| length_error.

Inductive res (A : Type) : Type :=
| ok (a : A)
| throw (e : exn).

Arguments ok {A} a.
Arguments throw {A} e.

Definition bind {A B : Type} (c : res A) (k : A -> res B) : res B :=
  match c with
  | ok a => k a
  | throw e => throw e
  end.

Notation "x <- c ;; k" := (bind c (fun x => k))
  (at level 61, c at next level, right associativity).

Definition is_ok {A : Type} (c : res A) : bool :=
  match c with ok _ => true | throw _ => false end.

(** ** <charconv>: [std::from_chars] for integral types *)

Module charconv.

Inductive errc : Type :=
| errc_ok               (* std::errc{} *)
| invalid_argument
| result_out_of_range.

(** An integral type [T], given by the values it represents. *)
Record integral : Type := {
  T_min : Z;
  T_max : Z
}.

Definition is_signed (T : integral) : bool := T_min T <? 0.

Definition long_long_int : integral :=
  {| T_min := - 2 ^ 63; T_max := 2 ^ 63 - 1 |}.

Definition int : integral :=
  {| T_min := - 2 ^ 31; T_max := 2 ^ 31 - 1 |}.

Definition size_t : integral :=
  {| T_min := 0; T_max := 2 ^ 64 - 1 |}.

Definition digit_of (c : ascii) : option Z :=
  let n := Z.of_nat (nat_of_ascii c) in
  if (48 <=? n) && (n <=? 57) then Some (n - 48) else None.

(** The longest prefix of decimal digits of [s]: its value on top of
    [acc], and the number of characters it has on top of [cnt]. *)
Fixpoint digits (s : string) (acc : Z) (cnt : nat) : Z * nat :=
  match s with
  | String c s' =>
      match digit_of c with
      | Some d => digits s' (10 * acc + d) (S cnt)
      | None => (acc, cnt)
      end
  | EmptyString => (acc, cnt)
  end.

Record from_chars_result : Type := {
  ptr : nat;     (* offset of the first character not matching the pattern *)
  ec : errc
}.

(** The optional minus sign, accepted for signed types only. *)
Definition strip_sign (T : integral) (s : string) : bool * string :=
  match s with
  | String c s' =>
      if ((c =? "-")%char && is_signed T)%bool then (true, s') else (false, s)
  | EmptyString => (false, s)
  end.

Definition in_range (T : integral) (v : Z) : bool :=
  (T_min T <=? v) && (v <=? T_max T).

(** [from_chars(first, last, value)] in base 10.  The pattern is an
    optional minus sign (signed types only) followed by a non-empty run
    of digits; no white space and no plus sign.  When nothing matches,
    [value] is unmodified and [ec] is [invalid_argument]; when the value
    is outside the range of [T], [value] is unmodified and [ec] is
    [result_out_of_range]. *)
Definition from_chars (T : integral) (s : string) (value : Z)
  : from_chars_result * Z :=
  let '(neg, body) := strip_sign T s in
  let '(v, cnt) := digits body 0 0 in
  match cnt with
  | O => ({| ptr := 0; ec := invalid_argument |}, value)
  | S _ =>
      let v' := if neg then - v else v in
      let p := if neg then S cnt else cnt in
      if in_range T v'
      then ({| ptr := p; ec := errc_ok |}, v')
      else ({| ptr := p; ec := result_out_of_range |}, value)
  end.

(** [std::to_string] on an integer: the decimal text, with a leading
    minus sign for negative values. *)
Definition to_string (z : Z) : string :=
  NilEmpty.string_of_int (Z.to_int z).

(** The value of a decimal numeral read from the left on top of [acc]. *)
Fixpoint uint_fold (d : Decimal.uint) (acc : Z) : Z :=
  match d with
  | Decimal.Nil => acc
  | Decimal.D0 l => uint_fold l (10 * acc + 0)
  | Decimal.D1 l => uint_fold l (10 * acc + 1)
  | Decimal.D2 l => uint_fold l (10 * acc + 2)
  | Decimal.D3 l => uint_fold l (10 * acc + 3)
  | Decimal.D4 l => uint_fold l (10 * acc + 4)
  | Decimal.D5 l => uint_fold l (10 * acc + 5)
  | Decimal.D6 l => uint_fold l (10 * acc + 6)
  | Decimal.D7 l => uint_fold l (10 * acc + 7)
  | Decimal.D8 l => uint_fold l (10 * acc + 8)
  | Decimal.D9 l => uint_fold l (10 * acc + 9)
  end.

End charconv.

(** ** namespace aedis::resp *)

Module resp.

Import charconv.

(** [from_string_view] for integral [T] (response.hpp:29-36): only
    [invalid_argument] is turned into an exception. *)
Definition from_string_view (T : integral) (s : string) (n : Z) : res Z :=
  let '(r, n') := from_chars T s n in
  match ec r with
  | invalid_argument => throw (runtime_error "from_chars: Unable to convert")
  | _ => ok n'
  end.

(** [from_string_view] for [std::string] (response.hpp:38-40). *)
Definition from_string_view_string (s : string) (r : string) : res string :=
  ok s.

(** The enumeration [type] of type.hpp, with the enumerators that
    response.hpp uses. *)
Inductive type : Type :=
| array | push | set | map | attribute
| simple_string | simple_error | number | double_type | boolean
| big_number | null | blob_error | verbatim_string | blob_string
| streamed_string_part.

(** *** class response_base

    The virtual member functions, as a record of functions on the state
    [S] of the derived class.  The public, non-virtual members
    ([select_array], [on_number], ...) only forward to these. *)
Record response_base (S : Type) : Type := {
  on_simple_string_impl : string -> S -> res S;
  on_simple_error_impl : string -> S -> res S;
  on_number_impl : string -> S -> res S;
  on_double_impl : string -> S -> res S;
  on_null_impl : S -> res S;
  on_bool_impl : string -> S -> res S;
  on_big_number_impl : string -> S -> res S;
  on_verbatim_string_impl : string -> S -> res S;
  on_blob_string_impl : string -> S -> res S;
  on_blob_error_impl : string -> S -> res S;
  on_streamed_string_part_impl : string -> S -> res S;
  select_array_impl : Z -> S -> res S;
  select_set_impl : Z -> S -> res S;
  select_map_impl : Z -> S -> res S;
  select_push_impl : Z -> S -> res S;
  select_attribute_impl : Z -> S -> res S;
  pop : S -> S
}.

Arguments on_simple_string_impl {S} _ _ _.
Arguments on_simple_error_impl {S} _ _ _.
Arguments on_number_impl {S} _ _ _.
Arguments on_double_impl {S} _ _ _.
Arguments on_null_impl {S} _ _.
Arguments on_bool_impl {S} _ _ _.
Arguments on_big_number_impl {S} _ _ _.
Arguments on_verbatim_string_impl {S} _ _ _.
Arguments on_blob_string_impl {S} _ _ _.
Arguments on_blob_error_impl {S} _ _ _.
Arguments on_streamed_string_part_impl {S} _ _ _.
Arguments select_array_impl {S} _ _ _.
Arguments select_set_impl {S} _ _ _.
Arguments select_map_impl {S} _ _ _.
Arguments select_push_impl {S} _ _ _.
Arguments select_attribute_impl {S} _ _ _.
Arguments pop {S} _ _.

(** The exception of a member that a derived class left alone. *)
Definition not_overridden (member : string) : exn :=
  runtime_error (member ++ ": Has not been overridden.")%string.

(** The members as [response_base] itself defines them
    (response.hpp:44-78). *)
Definition base (S : Type) : response_base S := {|
  on_simple_string_impl := fun _ _ => throw (not_overridden "on_simple_string_impl");
  on_simple_error_impl := fun _ _ => throw (not_overridden "on_simple_error_impl");
  on_number_impl := fun _ _ => throw (not_overridden "on_number_impl");
  on_double_impl := fun _ _ => throw (not_overridden "on_double_impl");
  on_null_impl := fun _ => throw (not_overridden "on_null_impl");
  on_bool_impl := fun _ _ => throw (not_overridden "on_bool_impl");
  on_big_number_impl := fun _ _ => throw (not_overridden "on_big_number_impl");
  on_verbatim_string_impl := fun _ _ => throw (not_overridden "on_verbatim_string_impl");
  on_blob_string_impl := fun _ _ => throw (not_overridden "on_blob_string_impl");
  on_blob_error_impl := fun _ _ => throw (not_overridden "on_blob_error_impl");
  on_streamed_string_part_impl := fun _ _ => throw (not_overridden "on_streamed_string_part");
  select_array_impl := fun _ _ => throw (not_overridden "select_array_impl");
  select_set_impl := fun _ _ => throw (not_overridden "select_set_impl");
  select_map_impl := fun _ _ => throw (not_overridden "select_map_impl");
  select_push_impl := fun _ _ => throw (not_overridden "select_push_impl");
  select_attribute_impl := fun _ _ => throw (not_overridden "select_attribute_impl");
  pop := fun st => st
|}.

(** *** The calls that the parser makes on a response object *)

Inductive event : Type :=
| ev_select_attribute (n : Z)
| ev_select_push (n : Z)
| ev_select_array (n : Z)
| ev_select_set (n : Z)
| ev_select_map (n : Z)
| ev_on_simple_error (s : string)
| ev_on_blob_error (s : string)
| ev_on_null
| ev_on_simple_string (s : string)
| ev_on_number (s : string)
| ev_on_double (s : string)
| ev_on_bool (s : string)
| ev_on_big_number (s : string)
| ev_on_verbatim_string (s : string)
| ev_on_blob_string (s : string)
| ev_on_streamed_string_part (s : string)
| ev_pop.

(** One call on the object [r] in state [st]. *)
Definition call {S : Type} (r : response_base S) (e : event) (st : S) : res S :=
  match e with
  | ev_select_attribute n => select_attribute_impl r n st
  | ev_select_push n => select_push_impl r n st
  | ev_select_array n => select_array_impl r n st
  | ev_select_set n => select_set_impl r n st
  | ev_select_map n => select_map_impl r n st
  | ev_on_simple_error s => on_simple_error_impl r s st
  | ev_on_blob_error s => on_blob_error_impl r s st
  | ev_on_null => on_null_impl r st
  | ev_on_simple_string s => on_simple_string_impl r s st
  | ev_on_number s => on_number_impl r s st
  | ev_on_double s => on_double_impl r s st
  | ev_on_bool s => on_bool_impl r s st
  | ev_on_big_number s => on_big_number_impl r s st
  | ev_on_verbatim_string s => on_verbatim_string_impl r s st
  | ev_on_blob_string s => on_blob_string_impl r s st
  | ev_on_streamed_string_part s => on_streamed_string_part_impl r s st
  | ev_pop => ok (pop r st)
  end.

(** The calls of one reply, in order; an exception ends the run. *)
Fixpoint drive {S : Type} (r : response_base S) (evs : list event) (st : S)
  : res S :=
  match evs with
  | [] => ok st
  | e :: evs' => st' <- call r e st ;; drive r evs' st'
  end.

(** [s[i]] on a string view; the callers check the size first. *)
Definition char_at (s : string) (i : nat) : ascii :=
  match String.get i s with
  | Some c => c
  | None => zero
  end.

(** *** class response_ignore (response.hpp:98-116) *)
Definition response_ignore : response_base unit := {|
  on_simple_string_impl := fun _ st => ok st;
  on_simple_error_impl := fun _ st => ok st;
  on_number_impl := fun _ st => ok st;
  on_double_impl := fun _ st => ok st;
  on_null_impl := fun st => ok st;
  on_bool_impl := fun _ st => ok st;
  on_big_number_impl := fun _ st => ok st;
  on_verbatim_string_impl := fun _ st => ok st;
  on_blob_string_impl := fun _ st => ok st;
  on_blob_error_impl := fun _ st => ok st;
  on_streamed_string_part_impl := fun _ st => ok st;
  select_array_impl := fun _ st => ok st;
  select_set_impl := fun _ st => ok st;
  select_map_impl := fun _ st => ok st;
  select_push_impl := fun _ st => ok st;
  select_attribute_impl := fun _ st => ok st;
  pop := fun st => st
|}.

(** *** class response_basic_number<T> (response.hpp:181-190)

    The state is the public member [result]; it has no initialiser, so
    the initial state is whatever the caller finds there. *)
Definition response_basic_number (T : integral) : response_base Z := {|
  on_simple_string_impl := on_simple_string_impl (base Z);
  on_simple_error_impl := on_simple_error_impl (base Z);
  on_number_impl := fun s result => from_string_view T s result;
  on_double_impl := on_double_impl (base Z);
  on_null_impl := on_null_impl (base Z);
  on_bool_impl := on_bool_impl (base Z);
  on_big_number_impl := on_big_number_impl (base Z);
  on_verbatim_string_impl := on_verbatim_string_impl (base Z);
  on_blob_string_impl := on_blob_string_impl (base Z);
  on_blob_error_impl := on_blob_error_impl (base Z);
  on_streamed_string_part_impl := on_streamed_string_part_impl (base Z);
  select_array_impl := select_array_impl (base Z);
  select_set_impl := select_set_impl (base Z);
  select_map_impl := select_map_impl (base Z);
  select_push_impl := select_push_impl (base Z);
  select_attribute_impl := select_attribute_impl (base Z);
  pop := pop (base Z)
|}.

(** [using response_number = response_basic_number<long long int>] *)
Definition response_number : response_base Z :=
  response_basic_number long_long_int.

(** *** class response_bool (response.hpp:357-371) *)
Definition response_bool : response_base bool := {|
  on_simple_string_impl := on_simple_string_impl (base bool);
  on_simple_error_impl := on_simple_error_impl (base bool);
  on_number_impl := on_number_impl (base bool);
  on_double_impl := on_double_impl (base bool);
  on_null_impl := on_null_impl (base bool);
  on_bool_impl := fun s _ =>
    if negb (Z.of_nat (String.length s) =? 1)
    then throw (runtime_error "Bool has wrong size")
    else ok (char_at s 0 =? "t")%char;
  on_big_number_impl := on_big_number_impl (base bool);
  on_verbatim_string_impl := on_verbatim_string_impl (base bool);
  on_blob_string_impl := on_blob_string_impl (base bool);
  on_blob_error_impl := on_blob_error_impl (base bool);
  on_streamed_string_part_impl := on_streamed_string_part_impl (base bool);
  select_array_impl := select_array_impl (base bool);
  select_set_impl := select_set_impl (base bool);
  select_map_impl := select_map_impl (base bool);
  select_push_impl := select_push_impl (base bool);
  select_attribute_impl := select_attribute_impl (base bool);
  pop := pop (base bool)
|}.

(** *** class response_basic_simple_string (response.hpp:222-233) *)
Definition response_simple_string : response_base string := {|
  on_simple_string_impl := fun s result => from_string_view_string s result;
  on_simple_error_impl := on_simple_error_impl (base string);
  on_number_impl := on_number_impl (base string);
  on_double_impl := on_double_impl (base string);
  on_null_impl := on_null_impl (base string);
  on_bool_impl := on_bool_impl (base string);
  on_big_number_impl := on_big_number_impl (base string);
  on_verbatim_string_impl := on_verbatim_string_impl (base string);
  on_blob_string_impl := on_blob_string_impl (base string);
  on_blob_error_impl := on_blob_error_impl (base string);
  on_streamed_string_part_impl := on_streamed_string_part_impl (base string);
  select_array_impl := select_array_impl (base string);
  select_set_impl := select_set_impl (base string);
  select_map_impl := select_map_impl (base string);
  select_push_impl := select_push_impl (base string);
  select_attribute_impl := select_attribute_impl (base string);
  pop := pop (base string)
|}.

(** *** class response_basic_streamed_string (response.hpp:320-331) *)
Definition response_streamed_string : response_base string := {|
  on_simple_string_impl := on_simple_string_impl (base string);
  on_simple_error_impl := on_simple_error_impl (base string);
  on_number_impl := on_number_impl (base string);
  on_double_impl := on_double_impl (base string);
  on_null_impl := on_null_impl (base string);
  on_bool_impl := on_bool_impl (base string);
  on_big_number_impl := on_big_number_impl (base string);
  on_verbatim_string_impl := on_verbatim_string_impl (base string);
  on_blob_string_impl := on_blob_string_impl (base string);
  on_blob_error_impl := on_blob_error_impl (base string);
  on_streamed_string_part_impl := fun s result => ok (result ++ s)%string;
  select_array_impl := select_array_impl (base string);
  select_set_impl := select_set_impl (base string);
  select_map_impl := select_map_impl (base string);
  select_push_impl := select_push_impl (base string);
  select_attribute_impl := select_attribute_impl (base string);
  pop := pop (base string)
|}.

(** *** class response_tree (response.hpp:120-179) *)

Module response_tree.

Record elem : Type := {
  depth : Z;
  t : type;
  expected_size : Z;
  value : list string
}.

Record state : Type := {
  result : list elem;
  depth_ : Z
}.

(** A freshly constructed object, and the object after [clear()]. *)
Definition clear : state := {| result := []; depth_ := 0 |}.

Definition size (st : state) : nat := List.length (result st).

(** [result.back()] together with the elements before it. *)
Fixpoint unsnoc {A : Type} (l : list A) : option (list A * A) :=
  match l with
  | [] => None
  | x :: l' =>
      match unsnoc l' with
      | None => Some ([], x)
      | Some (init, back) => Some (x :: init, back)
      end
  end.

(** [add_aggregate(n, t)].  Both branches hand the [int] [n] to
    [std::vector::reserve], which takes a size: a negative [n] arrives
    there as a size above [max_size()] and [reserve] raises
    [std::length_error] (at a depth other than 0 after [emplace_back],
    and before [++depth_]).  For any other [n], [reserve] changes no
    element; running out of memory is left out. *)
Definition add_aggregate (n : Z) (ty : type) (st : state) : res state :=
  if n <? 0 then
    throw length_error
  else if depth_ st =? 0 then
    ok {| result := result st; depth_ := depth_ st + 1 |}
  else
    ok {| result := (result st ++
                    [ {| depth := depth_ st; t := ty;
                         expected_size := n; value := [] |} ])%list;
          depth_ := depth_ st + 1 |}.

(** [add(s, t)]. *)
Definition add (s : string) (ty : type) (st : state) : res state :=
  match unsnoc (result st) with
  | None => throw (assertion_failure "!std::empty(result)")
  | Some (init, back) =>
      if Z.of_nat (List.length (value back)) =? expected_size back then
        ok {| result := (result st ++
                        [ {| depth := depth_ st; t := ty;
                             expected_size := 1; value := [s] |} ])%list;
              depth_ := depth_ st |}
      else
        ok {| result := (init ++
                        [ {| depth := depth back; t := t back;
                             expected_size := expected_size back;
                             value := value back ++ [s] |} ])%list;
              depth_ := depth_ st |}
  end.

(** An element recorded below the root of a reply. *)
Definition below_root (e : elem) : Prop := 1 <= depth e.

Definition vtable : response_base state := {|
  on_simple_string_impl := fun s => add s simple_string;
  on_simple_error_impl := fun s => add s simple_error;
  on_number_impl := fun s => add s number;
  on_double_impl := fun s => add s double_type;
  on_null_impl := add "" null;
  on_bool_impl := fun s => add s boolean;
  on_big_number_impl := fun s => add s big_number;
  on_verbatim_string_impl := fun s => add s verbatim_string;
  on_blob_string_impl := fun s => add s blob_string;
  on_blob_error_impl := fun s => add s blob_error;
  on_streamed_string_part_impl := fun s => add s streamed_string_part;
  select_array_impl := fun n => add_aggregate n array;
  select_set_impl := fun n => add_aggregate n set;
  select_map_impl := fun n => add_aggregate n map;
  select_push_impl := fun n => add_aggregate n push;
  select_attribute_impl := fun n => add_aggregate n attribute;
  pop := fun st => {| result := result st; depth_ := depth_ st - 1 |}
|}.

End response_tree.

(** *** The calls of a reply *)

(** The call that announces a scalar of type [ty] with body [s], and
    the call that announces the header of an aggregate of type [ty]. *)
Definition scalar_event (ty : type) (s : string) : event :=
  match ty with
  | simple_error => ev_on_simple_error s
  | blob_error => ev_on_blob_error s
  | number => ev_on_number s
  | double_type => ev_on_double s
  | boolean => ev_on_bool s
  | big_number => ev_on_big_number s
  | verbatim_string => ev_on_verbatim_string s
  | blob_string => ev_on_blob_string s
  | streamed_string_part => ev_on_streamed_string_part s
  | _ => ev_on_simple_string s
  end.

Definition select_event (ty : type) (n : Z) : event :=
  match ty with
  | push => ev_select_push n
  | set => ev_select_set n
  | map => ev_select_map n
  | attribute => ev_select_attribute n
  | _ => ev_select_array n
  end.

(** The type under which the header of an aggregate is announced. *)
Definition aggregate_type (ty : type) : type :=
  match ty with
  | push | set | map | attribute => ty
  | _ => array
  end.

(** The calls of a container, an aggregate of type [fst c] that holds
    the scalars [snd c] and nothing else: its header with their number,
    the scalars, and [pop()] when it is complete. *)
Definition container_calls (c : type * list (type * string)) : list event :=
  select_event (fst c) (Z.of_nat (List.length (snd c)))
    :: List.map (fun ts => scalar_event (fst ts) (snd ts)) (snd c)
    ++ [ev_pop].

(** The element that the tree adapter holds for a container below the
    root: its header at depth 1 and its scalars in [value]. *)
Definition flat_elem (c : type * list (type * string)) : response_tree.elem :=
  {| response_tree.depth := 1;
     response_tree.t := aggregate_type (fst c);
     response_tree.expected_size := Z.of_nat (List.length (snd c));
     response_tree.value := List.map snd (snd c) |}.

(** Whether a call opens an aggregate, closes one, or neither. *)
Definition opens (e : event) : bool :=
  match e with
  | ev_select_attribute _ | ev_select_push _ | ev_select_array _
  | ev_select_set _ | ev_select_map _ => true
  | _ => false
  end.

Definition closes (e : event) : bool :=
  match e with
  | ev_pop => true
  | _ => false
  end.

(** The number of aggregate headers opened and not yet closed after
    the calls [evs]. *)
Fixpoint unclosed (evs : list event) : Z :=
  match evs with
  | [] => 0
  | e :: evs' =>
      (if opens e then 1 else 0) - (if closes e then 1 else 0) + unclosed evs'
  end.

(** With [d] aggregates open at the start, at least one aggregate is
    open before each of the calls [evs]. *)
Fixpoint open_before_each (d : Z) (evs : list event) : bool :=
  match evs with
  | [] => true
  | e :: evs' => (1 <=? d) && open_before_each (d + unclosed [e]) evs'
  end.

(** *** The string classes with one member
    (response.hpp:194-220, 237-285, 305-318)

    [response_basic_blob_string], [response_basic_blob_error],
    [response_basic_simple_error], [response_basic_big_number],
    [response_basic_double] and [response_basic_verbatim_string] at
    [char].  Like [response_basic_simple_string], each overrides one
    member, which assigns the body to [result]. *)
Definition response_blob_string : response_base string := {|
  on_simple_string_impl := on_simple_string_impl (base string);
  on_simple_error_impl := on_simple_error_impl (base string);
  on_number_impl := on_number_impl (base string);
  on_double_impl := on_double_impl (base string);
  on_null_impl := on_null_impl (base string);
  on_bool_impl := on_bool_impl (base string);
  on_big_number_impl := on_big_number_impl (base string);
  on_verbatim_string_impl := on_verbatim_string_impl (base string);
  on_blob_string_impl := fun s result => from_string_view_string s result;
  on_blob_error_impl := on_blob_error_impl (base string);
  on_streamed_string_part_impl := on_streamed_string_part_impl (base string);
  select_array_impl := select_array_impl (base string);
  select_set_impl := select_set_impl (base string);
  select_map_impl := select_map_impl (base string);
  select_push_impl := select_push_impl (base string);
  select_attribute_impl := select_attribute_impl (base string);
  pop := pop (base string)
|}.

Definition response_blob_error : response_base string := {|
  on_simple_string_impl := on_simple_string_impl (base string);
  on_simple_error_impl := on_simple_error_impl (base string);
  on_number_impl := on_number_impl (base string);
  on_double_impl := on_double_impl (base string);
  on_null_impl := on_null_impl (base string);
  on_bool_impl := on_bool_impl (base string);
  on_big_number_impl := on_big_number_impl (base string);
  on_verbatim_string_impl := on_verbatim_string_impl (base string);
  on_blob_string_impl := on_blob_string_impl (base string);
  on_blob_error_impl := fun s result => from_string_view_string s result;
  on_streamed_string_part_impl := on_streamed_string_part_impl (base string);
  select_array_impl := select_array_impl (base string);
  select_set_impl := select_set_impl (base string);
  select_map_impl := select_map_impl (base string);
  select_push_impl := select_push_impl (base string);
  select_attribute_impl := select_attribute_impl (base string);
  pop := pop (base string)
|}.

Definition response_simple_error : response_base string := {|
  on_simple_string_impl := on_simple_string_impl (base string);
  on_simple_error_impl := fun s result => from_string_view_string s result;
  on_number_impl := on_number_impl (base string);
  on_double_impl := on_double_impl (base string);
  on_null_impl := on_null_impl (base string);
  on_bool_impl := on_bool_impl (base string);
  on_big_number_impl := on_big_number_impl (base string);
  on_verbatim_string_impl := on_verbatim_string_impl (base string);
  on_blob_string_impl := on_blob_string_impl (base string);
  on_blob_error_impl := on_blob_error_impl (base string);
  on_streamed_string_part_impl := on_streamed_string_part_impl (base string);
  select_array_impl := select_array_impl (base string);
  select_set_impl := select_set_impl (base string);
  select_map_impl := select_map_impl (base string);
  select_push_impl := select_push_impl (base string);
  select_attribute_impl := select_attribute_impl (base string);
  pop := pop (base string)
|}.

Definition response_big_number : response_base string := {|
  on_simple_string_impl := on_simple_string_impl (base string);
  on_simple_error_impl := on_simple_error_impl (base string);
  on_number_impl := on_number_impl (base string);
  on_double_impl := on_double_impl (base string);
  on_null_impl := on_null_impl (base string);
  on_bool_impl := on_bool_impl (base string);
  on_big_number_impl := fun s result => from_string_view_string s result;
  on_verbatim_string_impl := on_verbatim_string_impl (base string);
  on_blob_string_impl := on_blob_string_impl (base string);
  on_blob_error_impl := on_blob_error_impl (base string);
  on_streamed_string_part_impl := on_streamed_string_part_impl (base string);
  select_array_impl := select_array_impl (base string);
  select_set_impl := select_set_impl (base string);
  select_map_impl := select_map_impl (base string);
  select_push_impl := select_push_impl (base string);
  select_attribute_impl := select_attribute_impl (base string);
  pop := pop (base string)
|}.

Definition response_double : response_base string := {|
  on_simple_string_impl := on_simple_string_impl (base string);
  on_simple_error_impl := on_simple_error_impl (base string);
  on_number_impl := on_number_impl (base string);
  on_double_impl := fun s result => from_string_view_string s result;
  on_null_impl := on_null_impl (base string);
  on_bool_impl := on_bool_impl (base string);
  on_big_number_impl := on_big_number_impl (base string);
  on_verbatim_string_impl := on_verbatim_string_impl (base string);
  on_blob_string_impl := on_blob_string_impl (base string);
  on_blob_error_impl := on_blob_error_impl (base string);
  on_streamed_string_part_impl := on_streamed_string_part_impl (base string);
  select_array_impl := select_array_impl (base string);
  select_set_impl := select_set_impl (base string);
  select_map_impl := select_map_impl (base string);
  select_push_impl := select_push_impl (base string);
  select_attribute_impl := select_attribute_impl (base string);
  pop := pop (base string)
|}.

Definition response_verbatim_string : response_base string := {|
  on_simple_string_impl := on_simple_string_impl (base string);
  on_simple_error_impl := on_simple_error_impl (base string);
  on_number_impl := on_number_impl (base string);
  on_double_impl := on_double_impl (base string);
  on_null_impl := on_null_impl (base string);
  on_bool_impl := on_bool_impl (base string);
  on_big_number_impl := on_big_number_impl (base string);
  on_verbatim_string_impl := fun s result => from_string_view_string s result;
  on_blob_string_impl := on_blob_string_impl (base string);
  on_blob_error_impl := on_blob_error_impl (base string);
  on_streamed_string_part_impl := on_streamed_string_part_impl (base string);
  select_array_impl := select_array_impl (base string);
  select_set_impl := select_set_impl (base string);
  select_map_impl := select_map_impl (base string);
  select_push_impl := select_push_impl (base string);
  select_attribute_impl := select_attribute_impl (base string);
  pop := pop (base string)
|}.

(** The classes that keep one string, each with the type of the node
    that it accepts. *)
Definition string_classes : list (type * response_base string) :=
  [ (simple_string, response_simple_string);
    (simple_error, response_simple_error);
    (double_type, response_double);
    (big_number, response_big_number);
    (blob_string, response_blob_string);
    (blob_error, response_blob_error);
    (verbatim_string, response_verbatim_string) ].

(** The body that a call hands over: that of a scalar node, the empty
    view for a null, nothing for a header or for [pop()]. *)
Definition node_body (e : event) : option string :=
  match e with
  | ev_on_simple_error s | ev_on_blob_error s | ev_on_simple_string s
  | ev_on_number s | ev_on_double s | ev_on_bool s | ev_on_big_number s
  | ev_on_verbatim_string s | ev_on_blob_string s
  | ev_on_streamed_string_part s => Some s
  | ev_on_null => Some ""
  | _ => None
  end.

(** The bodies of the calls [evs], in their order. *)
Definition node_bodies (evs : list event) : list string :=
  List.flat_map (fun e => match node_body e with
                          | Some s => [s]
                          | None => []
                          end) evs.

(** *** The element type of a container class

    The container classes are templates over the type [T] of their
    elements.  Their members declare [T r;] and call
    [from_string_view(s, r)].  [element] carries both: [declared k] is
    the value of [r] after its declaration in the call that finds [k]
    elements in the container, and [convert] is the overload of
    [from_string_view] for [T]. *)
Record element (A : Type) : Type := {
  declared : nat -> A;
  convert : string -> A -> res A
}.

Arguments declared {A} _ _.
Arguments convert {A} _ _ _.

(** [T = std::string]: the declaration gives the empty string. *)
Definition std_string : element string :=
  {| declared := fun _ => ""; convert := from_string_view_string |}.

(** An integral [T]: the declaration leaves [r] indeterminate, and
    [from_chars] leaves it so when the body is out of range. *)
Definition integral_element (T : integral) (indeterminate : nat -> Z)
  : element Z :=
  {| declared := indeterminate; convert := from_string_view T |}.

(** The values that the bodies [ss] convert to. *)
Definition converts_to {A : Type} (T : element A) (ss : list string)
                       (vs : list A) : Prop :=
  Forall2 (fun s v => forall r, convert T s r = ok v) ss vs.

(** *** class response_array<T> (response.hpp:394-423) *)

Module response_array.

Section Element.

Context {A : Type} (T : element A).

(** [add(s)]. *)
Definition add (s : string) (result : list A) : res (list A) :=
  r <- convert T s (declared T (List.length result)) ;;
  ok (result ++ [r])%list.

Definition vtable : response_base (list A) := {|
  on_simple_string_impl := add;
  on_simple_error_impl := on_simple_error_impl (base (list A));
  on_number_impl := add;
  on_double_impl := add;
  on_null_impl := on_null_impl (base (list A));
  on_bool_impl := add;
  on_big_number_impl := add;
  on_verbatim_string_impl := add;
  on_blob_string_impl := add;
  on_blob_error_impl := on_blob_error_impl (base (list A));
  on_streamed_string_part_impl := add;
  select_array_impl := fun _ result => ok result;
  select_set_impl := fun _ result => ok result;
  select_map_impl := fun _ result => ok result;
  select_push_impl := fun _ result => ok result;
  select_attribute_impl := select_attribute_impl (base (list A));
  pop := pop (base (list A))
|}.

End Element.

(** The calls whose member the class overrides, [pop()] included. *)
Definition overrides (e : event) : bool :=
  match e with
  | ev_select_attribute _ | ev_on_simple_error _ | ev_on_blob_error _
  | ev_on_null => false
  | _ => true
  end.

End response_array.

(** [response_flat_map] and [response_flat_set] (response.hpp:425-429)
    are other names of [response_array]. *)
Definition response_flat_map {A : Type} (T : element A)
  : response_base (list A) := response_array.vtable T.

Definition response_flat_set {A : Type} (T : element A)
  : response_base (list A) := response_array.vtable T.

(** *** class response_list<T> (response.hpp:287-303)

    [std::list] with [push_back]: the elements in their order. *)

Module response_list.

Section Element.

Context {A : Type} (T : element A).

Definition vtable : response_base (list A) := {|
  on_simple_string_impl := on_simple_string_impl (base (list A));
  on_simple_error_impl := on_simple_error_impl (base (list A));
  on_number_impl := on_number_impl (base (list A));
  on_double_impl := on_double_impl (base (list A));
  on_null_impl := on_null_impl (base (list A));
  on_bool_impl := on_bool_impl (base (list A));
  on_big_number_impl := on_big_number_impl (base (list A));
  on_verbatim_string_impl := on_verbatim_string_impl (base (list A));
  on_blob_string_impl := fun s result =>
    r <- convert T s (declared T (List.length result)) ;;
    ok (result ++ [r])%list;
  on_blob_error_impl := on_blob_error_impl (base (list A));
  on_streamed_string_part_impl :=
    on_streamed_string_part_impl (base (list A));
  select_array_impl := fun _ result => ok result;
  select_set_impl := select_set_impl (base (list A));
  select_map_impl := select_map_impl (base (list A));
  select_push_impl := select_push_impl (base (list A));
  select_attribute_impl := select_attribute_impl (base (list A));
  pop := pop (base (list A))
|}.

End Element.

Definition overrides (e : event) : bool :=
  match e with
  | ev_on_blob_string _ | ev_select_array _ | ev_pop => true
  | _ => false
  end.

End response_list.

(** *** [std::set<Key, Compare>]

    A set is the list of its elements in the order of iteration, which
    is the order of [Compare]. *)

Module std_set.

Section Compare.

Context {Key : Type} (Compare : Key -> Key -> bool).

(** [insert(hint, v)]: [v] goes in front of the first element that it
    precedes, unless an element equivalent to it (neither precedes the
    other) is met first, in which case the set is left alone.  The hint
    has no part in the outcome. *)
Fixpoint insert (v : Key) (l : list Key) : list Key :=
  match l with
  | [] => [v]
  | x :: l' =>
      if Compare v x then v :: l
      else if Compare x v then x :: insert v l'
      else l
  end.

(** The order of iteration: each element precedes all later ones. *)
Fixpoint ordered (l : list Key) : Prop :=
  match l with
  | [] => True
  | x :: l' => Forall (fun y => Compare x y = true) l' /\ ordered l'
  end.

End Compare.

(** [std::less<std::string>]: the order of [char_traits<char>::compare],
    byte by byte, a proper prefix first.  [std::less] on an integral
    type is [<]. *)
Definition less_string : string -> string -> bool := String.ltb.

Definition less_integral : Z -> Z -> bool := Z.ltb.

End std_set.

(** *** class response_set<Key, Compare> (response.hpp:335-355) *)

Module response_set.

Section Key.

Context {A : Type} (Key : element A) (Compare : A -> A -> bool).

(** [add(s)]. *)
Definition add (s : string) (result : list A) : res (list A) :=
  r <- convert Key s (declared Key (List.length result)) ;;
  ok (std_set.insert Compare r result).

Definition vtable : response_base (list A) := {|
  on_simple_string_impl := add;
  on_simple_error_impl := on_simple_error_impl (base (list A));
  on_number_impl := on_number_impl (base (list A));
  on_double_impl := on_double_impl (base (list A));
  on_null_impl := on_null_impl (base (list A));
  on_bool_impl := on_bool_impl (base (list A));
  on_big_number_impl := on_big_number_impl (base (list A));
  on_verbatim_string_impl := on_verbatim_string_impl (base (list A));
  on_blob_string_impl := add;
  on_blob_error_impl := on_blob_error_impl (base (list A));
  on_streamed_string_part_impl :=
    on_streamed_string_part_impl (base (list A));
  select_array_impl := select_array_impl (base (list A));
  select_set_impl := fun _ result => ok result;
  select_map_impl := select_map_impl (base (list A));
  select_push_impl := select_push_impl (base (list A));
  select_attribute_impl := select_attribute_impl (base (list A));
  pop := pop (base (list A))
|}.

End Key.

Definition overrides (e : event) : bool :=
  match e with
  | ev_on_simple_string _ | ev_on_blob_string _ | ev_select_set _
  | ev_pop => true
  | _ => false
  end.

End response_set.

(** *** class response_unordered_set<Key, Compare> (response.hpp:373-392)

    Its [result] is a [std::set] as well. *)

Module response_unordered_set.

Section Key.

Context {A : Type} (Key : element A) (Compare : A -> A -> bool).

Definition vtable : response_base (list A) := {|
  on_simple_string_impl := on_simple_string_impl (base (list A));
  on_simple_error_impl := on_simple_error_impl (base (list A));
  on_number_impl := on_number_impl (base (list A));
  on_double_impl := on_double_impl (base (list A));
  on_null_impl := on_null_impl (base (list A));
  on_bool_impl := on_bool_impl (base (list A));
  on_big_number_impl := on_big_number_impl (base (list A));
  on_verbatim_string_impl := on_verbatim_string_impl (base (list A));
  on_blob_string_impl := fun s result =>
    r <- convert Key s (declared Key (List.length result)) ;;
    ok (std_set.insert Compare r result);
  on_blob_error_impl := on_blob_error_impl (base (list A));
  on_streamed_string_part_impl :=
    on_streamed_string_part_impl (base (list A));
  select_array_impl := fun _ result => ok result;
  select_set_impl := fun _ result => ok result;
  select_map_impl := select_map_impl (base (list A));
  select_push_impl := select_push_impl (base (list A));
  select_attribute_impl := select_attribute_impl (base (list A));
  pop := pop (base (list A))
|}.

End Key.

Definition overrides (e : event) : bool :=
  match e with
  | ev_on_blob_string _ | ev_select_array _ | ev_select_set _
  | ev_pop => true
  | _ => false
  end.

End response_unordered_set.

(** *** struct response_id and the buffers (response.hpp:478-590) *)

Module command.

(** The enumeration [command] of command.hpp, with the enumerators that
    the sources name. *)
Inductive t : Type :=
| append | del | exec | flushall | get | hdel | hello | hget | hgetall
| hincrby | hset | hvals | incr | llen | lpop | lrange | ltrim | multi
| ping | publish | quit | rpush | sadd | set | smembers | unknown
| zadd | zrange | zrangebyscore | zremrangebyscore.

End command.

(** [response_id<Event>]; the member [event] is not read by [get]. *)
Record response_id : Type := {
  cmd : command.t;
  id_t : type
}.

(** [response_buffers_ignore::get] (response.hpp:485-492). *)
Definition response_buffers_ignore_get (id : response_id)
  : response_base unit := response_ignore.

Module response_buffers.

(** The private members of the class. *)
Inductive member : Type :=
| tree_ | array_ | push_ | set_ | map_ | attribute_ | simple_string_
| simple_error_ | number_ | double_ | boolean_ | big_number_
| blob_string_ | blob_error_ | verbatim_string_ | streamed_string_part_
| ignore_.

(** The state of each member, and the class it is an object of
    (response.hpp:496-513). *)
Definition state_of (m : member) : Type :=
  match m with
  | tree_ => response_tree.state
  | array_ | push_ | set_ | map_ | attribute_ => list string
  | number_ => Z
  | boolean_ => bool
  | ignore_ => unit
  | _ => string
  end.

Definition object (m : member) : response_base (state_of m) :=
  match m return response_base (state_of m) with
  | tree_ => response_tree.vtable
  | array_ => response_array.vtable std_string
  | push_ => response_array.vtable std_string
  | set_ => response_array.vtable std_string
  | map_ => response_array.vtable std_string
  | attribute_ => response_array.vtable std_string
  | simple_string_ => response_simple_string
  | simple_error_ => response_simple_error
  | number_ => response_number
  | double_ => response_double
  | boolean_ => response_bool
  | big_number_ => response_big_number
  | blob_string_ => response_blob_string
  | blob_error_ => response_blob_error
  | verbatim_string_ => response_verbatim_string
  | streamed_string_part_ => response_streamed_string
  | ignore_ => response_ignore
  end.

(** [get(id)] (response.hpp:565-589): the member that receives the
    reply. *)
Definition get (id : response_id) : member :=
  match cmd id with
  | command.exec => tree_
  | _ =>
      match id_t id with
      | push => push_
      | set => set_
      | map => map_
      | attribute => attribute_
      | array => array_
      | simple_error => simple_error_
      | simple_string => simple_string_
      | number => number_
      | double_type => double_
      | big_number => big_number_
      | boolean => boolean_
      | blob_error => blob_error_
      | blob_string => blob_string_
      | verbatim_string => verbatim_string_
      | streamed_string_part => streamed_string_part_
      | null => ignore_
      end
  end.

End response_buffers.

(** *** The classes with a fixed capacity
    (response.hpp:431-441, 457-476)

    [response_static_array<T, N>] and [response_static_flat_map<T, N>]
    write into a [std::array].  Besides returning or raising one of the
    exceptions of [exn], their members can raise [std::out_of_range]
    (from [std::array::at]) or index the array past its end with
    [operator[]], for which C++ defines no behaviour. *)

Module fixed_capacity.

Inductive outcome (S : Type) : Type :=
| returns (st : S)
| raises (e : exn)
| raises_out_of_range
| undefined.

Arguments returns {S} st.
Arguments raises {S} e.
Arguments raises_out_of_range {S}.
Arguments undefined {S}.

(** The array [result] and the private counter [i_], which starts at 0
    and is only ever incremented. *)
Record state (A : Type) : Type := {
  result : list A;
  i_ : nat
}.

Arguments result {A} _.
Arguments i_ {A} _.

(** The array after [result[i] = v], for [i] inside it. *)
Fixpoint assign {A : Type} (l : list A) (i : nat) (v : A) : list A :=
  match l, i with
  | [], _ => []
  | _ :: l', O => v :: l'
  | x :: l', S i' => x :: assign l' i' v
  end.

(** A member that the class leaves to [response_base]. *)
Definition inherited {S : Type} (e : event) (st : S) : outcome S :=
  match call (base S) e st with
  | ok st' => returns st'
  | throw x => raises x
  end.

(** The calls of one reply, in order, on a class whose calls are
    [call_]; anything but a return ends the run. *)
Fixpoint run {S : Type} (call_ : event -> S -> outcome S)
             (evs : list event) (st : S) : outcome S :=
  match evs with
  | [] => returns st
  | e :: evs' =>
      match call_ e st with
      | returns st' => run call_ evs' st'
      | other => other
      end
  end.

End fixed_capacity.

(** *** class response_static_array<T, N> (response.hpp:431-441) *)

Module response_static_array.

Import fixed_capacity.

Section Element.

Context {A : Type} (T : element A).

(** [from_string_view(s, result[i_++])]: the element is converted in
    place, and nothing checks [i_] against [N]. *)
Definition on_blob_string_impl (s : string) (st : state A)
  : outcome (state A) :=
  match nth_error (result st) (i_ st) with
  | Some r =>
      match convert T s r with
      | ok v => returns {| result := assign (result st) (i_ st) v;
                           i_ := S (i_ st) |}
      | throw x => raises x
      end
  | None => undefined
  end.

Definition call_ (e : event) (st : state A) : outcome (state A) :=
  match e with
  | ev_on_blob_string s => on_blob_string_impl s st
  | ev_select_array _ => returns st
  | _ => inherited e st
  end.

End Element.

Definition overrides (e : event) : bool :=
  match e with
  | ev_on_blob_string _ | ev_select_array _ | ev_pop => true
  | _ => false
  end.

End response_static_array.

(** *** class response_static_flat_map<T, N> (response.hpp:457-476) *)

Module response_static_flat_map.

Import fixed_capacity.

Section Element.

Context {A : Type} (T : element A).

(** [add(s)]: [from_string_view(s, result.at(i_++))]; [at] raises
    [std::out_of_range] for an index that is not below [2 * N]. *)
Definition add (s : string) (st : state A) : outcome (state A) :=
  match nth_error (result st) (i_ st) with
  | Some r =>
      match convert T s r with
      | ok v => returns {| result := assign (result st) (i_ st) v;
                           i_ := S (i_ st) |}
      | throw x => raises x
      end
  | None => raises_out_of_range
  end.

Definition call_ (e : event) (st : state A) : outcome (state A) :=
  match e with
  | ev_on_blob_string s => add s st
  | ev_on_number s => add s st
  | ev_select_push _ => returns st
  | _ => inherited e st
  end.

End Element.

Definition overrides (e : event) : bool :=
  match e with
  | ev_on_blob_string _ | ev_on_number _ | ev_select_push _ | ev_pop => true
  | _ => false
  end.

End response_static_flat_map.

(** The first call of a reply of type [ty]: the header with size [n]
    for an aggregate, the node with body [s] for a scalar. *)
Definition first_call_of (ty : type) (n : Z) (s : string) : event :=
  match ty with
  | array | push | set | map | attribute => select_event ty n
  | null => ev_on_null
  | _ => scalar_event ty s
  end.

(** The type under which the tree adapter records the node that
    [scalar_event ty] announces. *)
Definition recorded_type (ty : type) : type :=
  match ty with
  | simple_error | blob_error | number | double_type | boolean
  | big_number | verbatim_string | blob_string | streamed_string_part => ty
  | _ => simple_string
  end.

(** Whether an element of the tree holds no more values than its header
    announced; a negative size announces nothing. *)
Definition within_expected (x : response_tree.elem) : bool :=
  (response_tree.expected_size x <? 0)
  || (Z.of_nat (List.length (response_tree.value x))
      <=? response_tree.expected_size x).

End resp.

(** ** Error kinds of the parser, the adapters and the engine *)

(** Modelled from the spec: the error enumeration is not under src/;
    these are the error kinds of section 7. *)
Inductive error_kind : Type :=
(* parser *)
| invalid_prefix | expects_resp3_simple_type | expects_resp3_aggregate_type
| no_crlf | exceeds_max_nested_depth | not_a_number | not_a_double
| not_a_boolean | incompatible_size | empty_field | unexpected_read_size
(* adapter *)
| wrong_type | null_unexpected | size_mismatch
(* server *)
| resp3_simple_error | resp3_blob_error
(* engine *)
| not_connected | cancelled | handshake_failed | connection_lost
| idle_timeout | resolve_timeout | connect_timeout | ssl_handshake_timeout.

(** ** The RESP3 framing *)

Module wire.

Import charconv resp.

Definition CR : ascii := "013"%char.
Definition LF : ascii := "010"%char.

Inductive parsed (A : Type) : Type :=
| need_more
| failed (e : error_kind)
| complete (a : A) (rest : string).

Arguments need_more {A}.
Arguments failed {A} e.
Arguments complete {A} a rest.

(** Modelled from the spec: the parser is not under src/.  Every line
    ends in CRLF (section 4.A): the bytes up to the next CRLF, and what
    follows it. *)
Fixpoint read_line (buf : string) : option (string * string) :=
  match buf with
  | EmptyString => None
  | String c buf' =>
      match buf' with
      | String c' rest =>
          if ((c =? CR) && (c' =? LF))%char then Some (EmptyString, rest)
          else
            match read_line buf' with
            | Some (line, rest') => Some (String c line, rest')
            | None => None
            end
      | EmptyString => None
      end
  end.

(** Modelled from the spec: the parser is not under src/.  A blob is
    its [n] payload bytes and the CRLF that ends them (section 6); other
    bytes in place of the CRLF are [unexpected_read_size]. *)
Fixpoint read_blob (n : nat) (buf : string) : parsed string :=
  match n with
  | O =>
      match buf with
      | String c (String c' rest) =>
          if ((c =? CR) && (c' =? LF))%char then complete EmptyString rest
          else failed unexpected_read_size
      | _ => need_more
      end
  | S n' =>
      match buf with
      | String c buf' =>
          match read_blob n' buf' with
          | complete b rest => complete (String c b) rest
          | failed e => failed e
          | need_more => need_more
          end
      | EmptyString => need_more
      end
  end.

(** Modelled from the spec: the parser is not under src/.  The count
    of a header is a non-negative decimal integer (section 6). *)
Definition read_size (body : string) : option nat :=
  let '(v, cnt) := digits body 0 0 in
  if (Nat.eqb cnt (String.length body) && negb (Nat.eqb cnt 0))%bool
  then Some (Z.to_nat v) else None.

(** Modelled from the spec: the parser is not under src/.  The [n]
    children of an aggregate, one after the other, each read by [p]. *)
Fixpoint parse_seq (p : string -> parsed (list event)) (n : nat) (buf : string)
  : parsed (list event) :=
  match n with
  | O => complete [] buf
  | S n' =>
      match p buf with
      | complete e1 r1 =>
          match parse_seq p n' r1 with
          | complete e2 r2 => complete (e1 ++ e2)%list r2
          | other => other
          end
      | other => other
      end
  end.

(** Modelled from the spec: the parser is not under src/.  The chunks
    of a streamed string, up to the zero-length chunk that ends it
    (section 4.B); each chunk with a body is one call of
    [on_streamed_string_part], and the fuel bounds their number. *)
Fixpoint parse_chunks (fuel : nat) (buf : string) : parsed (list event) :=
  match fuel with
  | O => need_more
  | S fuel' =>
      match read_line buf with
      | None => need_more
      | Some (String ";"%char body, rest) =>
          match read_size body with
          | None => failed not_a_number
          | Some O => complete [] rest
          | Some (S _ as n) =>
              match read_blob n rest with
              | complete chunk rest' =>
                  match parse_chunks fuel' rest' with
                  | complete evs rest'' =>
                      complete (ev_on_streamed_string_part chunk :: evs) rest''
                  | other => other
                  end
              | failed e => failed e
              | need_more => need_more
              end
          end
      | Some _ => failed invalid_prefix
      end
  end.

(** Modelled from the spec: the parser is not under src/.  A blob
    header, its payload and the call [mk] on the payload. *)
Definition parse_blob (mk : string -> event) (body rest : string)
  : parsed (list event) :=
  match read_size body with
  | None => failed not_a_number
  | Some n =>
      match read_blob n rest with
      | complete b rest' => complete [mk b] rest'
      | failed e => failed e
      | need_more => need_more
      end
  end.

(** Modelled from the spec: the parser is not under src/.  The body of
    a number node is the text of a 64-bit signed integer (section 3),
    all of it. *)
Definition is_number (body : string) : bool :=
  let '(r, _) := from_chars long_long_int body 0 in
  match ec r with
  | errc_ok => Nat.eqb (ptr r) (String.length body)
  | _ => false
  end.

(** Modelled from the spec: the parser is not under src/.  The body of
    a boolean is t or f, of length one (section 4.B). *)
Definition is_boolean (body : string) : bool :=
  ((body =? "t") || (body =? "f"))%string.

Definition starts_with_digit (s : string) : bool :=
  match s with
  | String c _ => match digit_of c with Some _ => true | None => false end
  | EmptyString => false
  end.

Fixpoint drop_digits (s : string) : string :=
  match s with
  | String c s' =>
      match digit_of c with Some _ => drop_digits s' | None => s end
  | EmptyString => s
  end.

Definition drop_sign (s : string) : string :=
  match s with
  | String c s' => if ((c =? "-") || (c =? "+"))%char then s' else s
  | EmptyString => s
  end.

(** Modelled from the spec: the parser is not under src/, and the
    specification does not spell out the text of a double.  This is the
    one of RESP3: an optional sign, digits, an optional fraction and an
    optional exponent, or one of inf, -inf and nan. *)
Definition is_double (body : string) : bool :=
  if ((body =? "inf") || (body =? "-inf") || (body =? "nan"))%string
  then true
  else
    let mantissa := drop_sign body in
    starts_with_digit mantissa &&
    let after_int := drop_digits mantissa in
    let exponent_ok (s : string) : bool :=
      match s with
      | EmptyString => true
      | String c e =>
          ((c =? "e") || (c =? "E"))%char &&
          starts_with_digit (drop_sign e) &&
          (drop_digits (drop_sign e) =? "")%string
      end in
    match after_int with
    | String "."%char fraction =>
        starts_with_digit fraction && exponent_ok (drop_digits fraction)
    | _ => exponent_ok after_int
    end.

(** Modelled from the spec: the parser is not under src/.  This is the
    parser of sections 4.A and 4.B: a one-byte prefix selects the kind,
    every header line ends in CRLF, a blob carries its byte count, an
    aggregate carries its element count (a map or an attribute holds two
    slots per declared entry) and a streamed string ends at its
    zero-length chunk.  The body of a number, of a double and of a
    boolean is checked, and a malformed one is [not_a_number],
    [not_a_double] or [not_a_boolean].  For each node the parser makes
    the call of the same name on the response object, with the body as
    it stands on the wire, and when an aggregate is complete it calls
    [pop()].  The argument [depth] is the configured limit on
    nesting. *)
Fixpoint parse_value (depth : nat) (buf : string) : parsed (list event) :=
  match depth with
  | O => failed exceeds_max_nested_depth
  | S depth' =>
      match read_line buf with
      | None => need_more
      | Some (EmptyString, _) => failed invalid_prefix
      | Some (String c body, rest) =>
          let aggregate_of (select : Z -> event) (slots : nat -> nat) :=
            match read_size body with
            | None => failed not_a_number
            | Some n =>
                match parse_seq (parse_value depth') (slots n) rest with
                | complete evs rest' =>
                    complete
                      (select (Z.of_nat (slots n)) :: evs ++ [ev_pop])%list
                      rest'
                | other => other
                end
            end in
          if (c =? "+")%char then complete [ev_on_simple_string body] rest
          else if (c =? "-")%char then complete [ev_on_simple_error body] rest
          else if (c =? ":")%char then
            if is_number body then complete [ev_on_number body] rest
            else failed not_a_number
          else if (c =? ",")%char then
            if is_double body then complete [ev_on_double body] rest
            else failed not_a_double
          else if (c =? "#")%char then
            if is_boolean body then complete [ev_on_bool body] rest
            else failed not_a_boolean
          else if (c =? "(")%char then complete [ev_on_big_number body] rest
          else if (c =? "_")%char then complete [ev_on_null] rest
          else if (c =? "$")%char then
            if (body =? "?")%string
            then parse_chunks (String.length rest) rest
            else parse_blob ev_on_blob_string body rest
          else if (c =? "!")%char then parse_blob ev_on_blob_error body rest
          else if (c =? "=")%char then parse_blob ev_on_verbatim_string body rest
          else if (c =? ";")%char then
            parse_blob ev_on_streamed_string_part body rest
          else if (c =? "*")%char then aggregate_of ev_select_array (fun n => n)
          else if (c =? "~")%char then aggregate_of ev_select_set (fun n => n)
          else if (c =? ">")%char then aggregate_of ev_select_push (fun n => n)
          else if (c =? "%")%char then
            aggregate_of ev_select_map (fun n => (2 * n)%nat)
          else if (c =? "|")%char then
            aggregate_of ev_select_attribute (fun n => (2 * n)%nat)
          else failed invalid_prefix
      end
  end.

(** Modelled from the spec: the configured limit on nesting of section
    4.B, whose value the specification leaves open. *)
Definition max_nested_depth : nat := 5.

(** Modelled from the spec: the parser is not under src/.  One
    top-level reply from the front of the buffer. *)
Definition parse_reply (buf : string) : parsed (list event) :=
  parse_value max_nested_depth buf.

(** Modelled from the spec: [read_one] of section 4.E is not under
    src/.  One complete top-level reply is taken from the buffer and
    handed to the response object; what the object makes of it has no
    bearing on how far the buffer is consumed (section 7). *)
Definition read_one {S : Type} (r : response_base S) (buf : string) (st : S)
  : parsed (res S) :=
  match parse_reply buf with
  | complete evs rest => complete (drive r evs st) rest
  | failed e => failed e
  | need_more => need_more
  end.

End wire.

(** ** The connection engine: pending slots and their order *)

Module engine.

Import charconv resp.

(** Modelled from the spec: the engine is not under src/.  The states
    of the connection of section 4.F. *)
Inductive conn_state : Type :=
| disconnected | resolving | connecting | handshaking | running | draining.

(** Modelled from the spec: the request class is not under src/.  The
    request config, the commands and the request of section 3. *)
Record config : Type := {
  cancel_on_connection_lost : bool;
  cancel_if_not_connected : bool;
  hello_with_priority : bool;
  retry : bool
}.

Record command : Type := {
  name : string;
  expected_replies : nat;
  treat_reply_as_transaction : bool
}.

Record request : Type := {
  commands : list command;
  payload : string;
  cfg : config
}.

(** The number of top-level replies that a request waits for. *)
Definition expected (r : request) : nat :=
  fold_right (fun c n => (expected_replies c + n)%nat) 0%nat (commands r).

(** Modelled from the spec: section 4.D.  A request is a handshake
    request when its config has [hello_with_priority] and its command
    list begins with HELLO. *)
Definition has_hello_priority (r : request) : bool :=
  hello_with_priority (cfg r) &&
  match commands r with
  | c :: _ => (name c =? "HELLO")%string
  | [] => false
  end.

(** Modelled from the spec: the engine is not under src/.  The states
    of a pending slot (section 3). *)
Inductive slot_state : Type :=
| queued | writing | awaiting_reply | done.

(** What the adapters of a slot report for its [i]-th top-level reply:
    nothing, or the error kind.  The values go to the submitter's
    targets, which the engine does not see. *)
Definition adapter : Type := nat -> list event -> option error_kind.

(** Modelled from the spec: the pending slot of section 3, with the
    counter of expected replies that the reader loop of section 4.F
    advances. *)
Record slot : Type := {
  handle : nat;                   (* the completion handle *)
  req : request;
  adapters : adapter;
  consumed : nat;                 (* replies read so far *)
  remaining : nat;                (* replies still expected *)
  state : slot_state;
  outcome : option error_kind     (* the first error reported so far *)
}.

(** What a submitter observes: its slot was popped from the FIFO and
    completed, or its submission was completed at once. *)
Inductive completion : Type :=
| slot_completed (h : nat) (r : request) (ec : option error_kind)
| submit_refused (h : nat) (r : request) (ec : error_kind).

(** Modelled from the spec: the engine of section 4.F with what it
    owns (section 3): the pending FIFO, the read buffer, the bytes it
    has written, the push channel, and the completions so far. *)
Record engine : Type := {
  conn : conn_state;
  fifo : list slot;
  rbuf : string;                    (* read buffer *)
  sent : string;                    (* bytes written to the transport *)
  pushes : list (list event);       (* the push channel *)
  completions : list completion     (* completion handlers run so far *)
}.

Definition init : engine :=
  {| conn := disconnected; fifo := []; rbuf := ""; sent := "";
     pushes := []; completions := [] |}.

Definition with_conn (c : conn_state) (e : engine) : engine :=
  {| conn := c; fifo := fifo e; rbuf := rbuf e; sent := sent e;
     pushes := pushes e; completions := completions e |}.

Definition with_fifo (f : list slot) (e : engine) : engine :=
  {| conn := conn e; fifo := f; rbuf := rbuf e; sent := sent e;
     pushes := pushes e; completions := completions e |}.

Definition with_rbuf (b : string) (e : engine) : engine :=
  {| conn := conn e; fifo := fifo e; rbuf := b; sent := sent e;
     pushes := pushes e; completions := completions e |}.

Definition with_sent (b : string) (e : engine) : engine :=
  {| conn := conn e; fifo := fifo e; rbuf := rbuf e; sent := b;
     pushes := pushes e; completions := completions e |}.

Definition with_push (p : list event) (e : engine) : engine :=
  {| conn := conn e; fifo := fifo e; rbuf := rbuf e; sent := sent e;
     pushes := pushes e ++ [p]; completions := completions e |}.

Definition completed (c : completion) (e : engine) : engine :=
  {| conn := conn e; fifo := fifo e; rbuf := rbuf e; sent := sent e;
     pushes := pushes e; completions := completions e ++ [c] |}.

Definition is_running (c : conn_state) : bool :=
  match c with running => true | _ => false end.

Definition is_queued (s : slot) : bool :=
  match state s with queued => true | _ => false end.

Definition new_slot (h : nat) (r : request) (a : adapter) : slot :=
  {| handle := h; req := r; adapters := a; consumed := 0;
     remaining := expected r; state := queued; outcome := None |}.

(** Modelled from the spec: the engine is not under src/.  A handshake
    request is flushed ahead of the others (section 4.F) and observed
    first (section 8): its slot goes ahead of every slot that is still
    queued.  It does not go past the requests that are already written,
    as the first remark of tests/conn_exec.cpp asks. *)
Fixpoint insert_ahead_of_queued (s : slot) (l : list slot) : list slot :=
  match l with
  | [] => [s]
  | x :: l' =>
      if is_queued x then s :: l else x :: insert_ahead_of_queued s l'
  end.

(** Modelled from the spec: the engine is not under src/.  Submission
    as in section 4.F: (1) a pending slot is created in the FIFO; (2) if
    the engine is not running and [cancel_if_not_connected] is set, the
    submission completes at once with [not_connected] and its slot is
    gone; (3) otherwise the request is enqueued, a handshake request
    ahead of the requests that are still queued. *)
Definition async_exec (h : nat) (r : request) (a : adapter) (e : engine)
  : engine :=
  let created := fifo e ++ [new_slot h r a] in
  if negb (is_running (conn e)) && cancel_if_not_connected (cfg r) then
    completed (submit_refused h r not_connected)
              (with_fifo (removelast created) e)
  else if has_hello_priority r then
    with_fifo (insert_ahead_of_queued (new_slot h r a) (removelast created)) e
  else
    with_fifo created e.

(** Modelled from the spec: one connection attempt of section 4.F,
    [disconnected -> resolving -> connecting -> handshaking -> running].
    Shutdown and reconnection are left out. *)
Definition progress (e : engine) : engine :=
  with_conn
    match conn e with
    | disconnected => resolving
    | resolving => connecting
    | connecting => handshaking
    | handshaking => running
    | running => running
    | draining => draining
    end e.

(** Modelled from the spec: the HELLO priority rule of section 4.F.
    While handshaking only handshake requests may be flushed; when
    running every queued request is. *)
Definition may_flush (c : conn_state) (s : slot) : bool :=
  is_queued s &&
  match c with
  | running => true
  | handshaking => has_hello_priority (req s)
  | _ => false
  end.

Definition flushed (s : slot) : slot :=
  {| handle := handle s; req := req s; adapters := adapters s;
     consumed := consumed s; remaining := remaining s;
     state := awaiting_reply; outcome := outcome s |}.

(** Modelled from the spec: one turn of the writer loop of section 4.F.
    The bytes of all the requests that may be flushed are written in one
    piece, request after request, and their slots await their replies. *)
Definition write (e : engine) : engine :=
  with_sent
    (sent e ++
     String.concat "" (List.map (fun s => payload (req s))
                                (List.filter (may_flush (conn e)) (fifo e))))%string
    (with_fifo
       (List.map (fun s => if may_flush (conn e) s then flushed s else s)
                 (fifo e))
       e).

Definition first_error (a b : option error_kind) : option error_kind :=
  match a with
  | Some _ => a
  | None => b
  end.

Definition is_push (evs : list event) : bool :=
  match evs with
  | ev_select_push _ :: _ => true
  | _ => false
  end.

(** The head slot after one more of its replies has been read. *)
Definition account (s : slot) (k : nat) (ec : option error_kind) : slot :=
  {| handle := handle s; req := req s; adapters := adapters s;
     consumed := S (consumed s); remaining := k;
     state := state s; outcome := ec |}.

(** Modelled from the spec: one turn of the reader loop of section 4.F.
    While running, one complete top-level reply is taken from the read
    buffer.  A push goes to the push channel.  Any other reply goes to
    the adapters of the head slot, if that slot awaits replies: its
    counter goes down by one and, at zero, the slot is popped and
    completed with the first error that its adapters reported, if any.
    The buffer advances past the reply whatever the adapters report
    (section 7).  With an incomplete or ill-formed reply in the buffer
    the turn does nothing: reconnection is left out. *)
Definition read (e : engine) : engine :=
  if negb (is_running (conn e)) then e
  else
    match wire.parse_reply (rbuf e) with
    | wire.complete evs rest =>
        if is_push evs then with_push evs (with_rbuf rest e)
        else
          match fifo e with
          | s :: others =>
              match state s, remaining s with
              | awaiting_reply, S k =>
                  let ec := first_error (outcome s) (adapters s (consumed s) evs) in
                  match k with
                  | O =>
                      completed (slot_completed (handle s) (req s) ec)
                                (with_fifo others (with_rbuf rest e))
                  | S _ =>
                      with_fifo (account s k ec :: others) (with_rbuf rest e)
                  end
              | _, _ => e
              end
          | [] => e
          end
    | _ => e
    end.

(** What can happen on a connection, one at a time: a submission, a
    step of the connection attempt, a turn of the writer, bytes from the
    server, a turn of the reader (the tasks of section 5 run on one
    strand, so their steps interleave). *)
Inductive action : Type :=
| submit (h : nat) (r : request) (a : adapter)
| connect_progress
| writer_turn
| receive (bytes : string)
| reader_turn.

Definition step (e : engine) (x : action) : engine :=
  match x with
  | submit h r a => async_exec h r a e
  | connect_progress => progress e
  | writer_turn => write e
  | receive bytes => with_rbuf (rbuf e ++ bytes)%string e
  | reader_turn => read e
  end.

Definition run (tr : list action) (e : engine) : engine :=
  fold_left step tr e.

(** The submissions of a schedule that became pending slots, in the
    order in which they were submitted. *)
Fixpoint enqueued (tr : list action) (e : engine) : list (nat * request) :=
  match tr with
  | [] => []
  | x :: tr' =>
      match x with
      | submit h r _ =>
          if negb (is_running (conn e)) && cancel_if_not_connected (cfg r)
          then enqueued tr' (step e x)
          else (h, r) :: enqueued tr' (step e x)
      | _ => enqueued tr' (step e x)
      end
  end.

(** The completed slots in the order of their completion, and the
    slots still pending in the order of the FIFO. *)
Fixpoint completed_slots (l : list completion) : list (nat * request) :=
  match l with
  | [] => []
  | slot_completed h r _ :: l' => (h, r) :: completed_slots l'
  | submit_refused _ _ _ :: l' => completed_slots l'
  end.

Definition pending_slots (f : list slot) : list (nat * request) :=
  List.map (fun s => (handle s, req s)) f.

Definition without_priority (l : list (nat * request)) : list (nat * request) :=
  List.filter (fun hr => negb (has_hello_priority (snd hr))) l.

(** The order of service: the slots already completed, then the
    pending ones as the FIFO holds them. *)
Definition service_order (e : engine) : list (nat * request) :=
  completed_slots (completions e) ++ pending_slots (fifo e).

(** What one action adds to the pending slots. *)
Definition newly_enqueued (e : engine) (x : action) : list (nat * request) :=
  match x with
  | submit h r _ =>
      if negb (is_running (conn e)) && cancel_if_not_connected (cfg r)
      then [] else [(h, r)]
  | _ => []
  end.

(** An action that is not the submission of a handshake request. *)
Definition plain_action (x : action) : Prop :=
  match x with
  | submit _ r _ => has_hello_priority r = false
  | _ => True
  end.



(** *** The adapters of a pipeline tuple *)

(** A response object of response.hpp as the adapter of one reply: an
    exception is reported as the error kind that [kind] gives it. *)
Definition adapt_with {S : Type} (r : response_base S) (st : S)
           (kind : exn -> error_kind) (evs : list event) : option error_kind :=
  match drive r evs st with
  | ok _ => None
  | throw e => Some (kind e)
  end.

(** The adapter [ignore]: the reply goes to [response_ignore]. *)
Definition adapt_ignore : list event -> option error_kind :=
  adapt_with response_ignore tt (fun _ => wrong_type).

(** Modelled from the spec: the element adapters of the pipeline tuple
    are not under src/.  The rule of section 4.C for an integral
    target: it accepts a number, whose body it parses, and a boolean; a
    null is for optional targets only; a server error is an error for a
    target that is not optional (section 7); every other kind is
    [wrong_type].  The body of a number is parsed with [from_chars]: it
    has to be the text of a value of [T], all of it, or the node is
    [not_a_number]. *)
Definition adapt_integer (T : integral) (evs : list event)
  : option error_kind :=
  match evs with
  | [ev_on_number s] =>
      let '(r, _) := from_chars T s 0 in
      match ec r with
      | errc_ok =>
          if Nat.eqb (ptr r) (String.length s) then None
          else Some not_a_number
      | _ => Some not_a_number
      end
  | [ev_on_bool _] => None
  | [ev_on_null] => Some null_unexpected
  | [ev_on_simple_error _] => Some resp3_simple_error
  | [ev_on_blob_error _] => Some resp3_blob_error
  | _ => Some wrong_type
  end.

(** The tuple of element adapters: the [i]-th reply goes to the [i]-th
    element; replies beyond the tuple are ignored. *)
Definition tuple (elements : list (list event -> option error_kind)) : adapter :=
  fun i evs =>
    match nth_error elements i with
    | Some a => a evs
    | None => None
    end.

End engine.

(** ** The request builder *)

Module request_builder.

Import engine.

Definition CRLF : string := String wire.CR (String wire.LF "").

Definition blob (s : string) : string :=
  ("$" ++ charconv.to_string (Z.of_nat (String.length s)) ++ CRLF
       ++ s ++ CRLF)%string.

Definition empty (c : config) : request :=
  {| commands := []; payload := ""; cfg := c |}.

(** Modelled from the spec: the request class is not under src/.
    [push(command, args...)] of section 4.D appends one framed command
    whose name and arguments are blob strings, and records that the
    command expects one top-level reply. *)
Definition push (cmd : string) (args : list string) (r : request) : request :=
  {| commands := commands r ++
                 [ {| name := cmd; expected_replies := 1;
                      treat_reply_as_transaction := false |} ];
     payload := (payload r ++ "*"
                 ++ charconv.to_string (Z.of_nat (S (List.length args)))
                 ++ CRLF ++ blob cmd ++ String.concat "" (List.map blob args))%string;
     cfg := cfg r |}.

End request_builder.

(** ** The scenarios of tests/conn_exec.cpp *)

Module conn_exec.

Import engine request_builder.

(** The three requests of [hello_priority], over their configs. *)
Definition req1 (c : config) : request :=
  push "PING" ["req1"] (empty c).

Definition req2 (c : config) : request :=
  push "QUIT" [] (push "PING" ["req2"] (push "HELLO" ["3"] (empty c))).

Definition req3 (c : config) : request :=
  push "PING" ["req3"] (push "HELLO" ["3"] (empty c)).

(** The three submissions, made before the connection is run. *)
Definition hello_priority_submissions (c1 c2 c3 : config) (a1 a2 a3 : adapter)
  : list action :=
  [ submit 1 (req1 c1) a1; submit 2 (req2 c2) a2; submit 3 (req3 c3) a3 ].

Definition plain : config :=
  {| cancel_on_connection_lost := false; cancel_if_not_connected := false;
     hello_with_priority := false; retry := false |}.

Definition with_priority : config :=
  {| cancel_on_connection_lost := false; cancel_if_not_connected := false;
     hello_with_priority := true; retry := false |}.

(** What the server sends: a map for HELLO (cut down to one entry), a
    blob string for PING with a message, a simple string for QUIT. *)
Definition hello_reply : string :=
  ("%1" ++ CRLF ++ blob "server" ++ blob "redis")%string.

Definition simple (s : string) : string := ("+" ++ s ++ CRLF)%string.

(** A full run of [hello_priority]: the connection comes up, the writer
    flushes, the server answers request after request. *)
Definition hello_priority_run : list action :=
  hello_priority_submissions plain plain with_priority
    (tuple []) (tuple []) (tuple [])
  ++ [ connect_progress; connect_progress; connect_progress;
       writer_turn; connect_progress; writer_turn;
       receive (hello_reply ++ blob "req3");
       reader_turn; reader_turn;
       receive (blob "req1"); reader_turn;
       receive (hello_reply ++ blob "req2" ++ simple "OK");
       reader_turn; reader_turn; reader_turn ].






(** [wrong_response_data_type]: HELLO and QUIT with the targets
    [response<ignore_t, int>], followed here by one more request. *)
Definition wrong_type_request : request :=
  push "QUIT" [] (push "HELLO" ["3"] (empty plain)).

Definition wrong_type_adapters : adapter :=
  tuple [adapt_ignore; adapt_integer charconv.int].

Definition next_request : request :=
  push "PING" ["again"] (empty plain).

(** Up to the reply to QUIT, which goes to the integer target. *)
Definition wrong_response_data_type_start : list action :=
  [ connect_progress; connect_progress; connect_progress; connect_progress;
    submit 1 wrong_type_request wrong_type_adapters;
    submit 2 next_request (tuple [adapt_ignore]);
    writer_turn;
    receive (hello_reply ++ simple "OK" ++ blob "again");
    reader_turn; reader_turn ].

Definition wrong_response_data_type_run : list action :=
  wrong_response_data_type_start ++ [ reader_turn ].

(** [cancel_request_if_not_connected]. *)
Definition cancel_config : config :=
  {| cancel_on_connection_lost := false; cancel_if_not_connected := true;
     hello_with_priority := false; retry := false |}.

Definition cancel_request : request :=
  push "PING" [] (push "HELLO" ["3"] (empty cancel_config)).

End conn_exec.

(** ** The inputs of tests/general.cpp *)

Module general.

Import resp request_builder.

(** The reply of [test_streamed_string]. *)
Definition streamed_hello : string :=
  ("$?" ++ CRLF ++ ";4" ++ CRLF ++ "Hell" ++ CRLF
        ++ ";5" ++ CRLF ++ "o wor" ++ CRLF
        ++ ";1" ++ CRLF ++ "d" ++ CRLF ++ ";0" ++ CRLF)%string.

(** The bodies of its chunks, the zero-length chunk apart. *)
Definition streamed_hello_parts : list string := ["Hell"; "o wor"; "d"].

(** The reply to EXEC in [test_general], where the transaction queued
    two PINGs: an array of two simple strings, and the calls that
    present it to a response object. *)
Definition exec_reply_bytes : string :=
  ("*2" ++ CRLF ++ "+PONG" ++ CRLF ++ "+PONG" ++ CRLF)%string.

Definition exec_calls : list event :=
  [ ev_select_array 2; ev_on_simple_string "PONG"; ev_on_simple_string "PONG";
    ev_pop ].

(** The children of the reply to an EXEC that queued LRANGE and HGETALL:
    a list of two numbers and a map with one entry. *)
Definition exec_containers : list (type * list (type * string)) :=
  [ (array, [(blob_string, "1"); (blob_string, "2")]);
    (map, [(blob_string, "key"); (blob_string, "val")]) ].

(** A root that declares one child, an array that holds an array that
    holds one string. *)
Definition nested_calls : list event :=
  [ ev_select_array 1; ev_select_array 1; ev_select_array 1;
    ev_on_blob_string "x"; ev_pop; ev_pop; ev_pop ].

(** A number just above the range of [long long int]. *)
Definition too_large : Z := 2 ^ 63.

(** The calls of the first reply of [test_map]: a map of seven entries
    whose values are blob strings, numbers and, for the last, an empty
    array. *)
Definition map_calls : list event :=
  [ ev_select_map 7;
    ev_on_blob_string "server"; ev_on_blob_string "redis";
    ev_on_blob_string "version"; ev_on_blob_string "6.0.9";
    ev_on_blob_string "proto"; ev_on_number "3";
    ev_on_blob_string "id"; ev_on_number "203";
    ev_on_blob_string "mode"; ev_on_blob_string "standalone";
    ev_on_blob_string "role"; ev_on_blob_string "master";
    ev_on_blob_string "modules"; ev_select_array 0; ev_pop;
    ev_pop ].

(** What [test_map] expects in the buffer. *)
Definition map_expected : list string :=
  [ "server"; "redis"; "version"; "6.0.9"; "proto"; "3"; "id"; "203";
    "mode"; "standalone"; "role"; "master"; "modules" ].

(** The calls of the second reply of [test_array], read into integers,
    and those of the first reply of [test_set2]. *)
Definition array_int_calls : list event :=
  [ ev_select_array 3; ev_on_blob_string "1"; ev_on_blob_string "2";
    ev_on_blob_string "3"; ev_pop ].

Definition set_calls : list event :=
  [ ev_select_set 5; ev_on_simple_string "orange";
    ev_on_simple_string "apple"; ev_on_simple_string "one";
    ev_on_simple_string "two"; ev_on_simple_string "three"; ev_pop ].

(** An array of three elements whose second is a null, as MGET answers
    for a key that does not exist. *)
Definition array_with_null_calls : list event :=
  [ ev_select_array 3; ev_on_blob_string "a"; ev_on_null;
    ev_on_blob_string "c"; ev_pop ].

(** A tree adapter that was not cleared after a reply: it holds one
    element with the one value it expects. *)
Definition tree_after_a_reply : response_tree.state :=
  {| response_tree.result :=
       [ {| response_tree.depth := 1; response_tree.t := array;
            response_tree.expected_size := 1;
            response_tree.value := ["x"] |} ];
     response_tree.depth_ := 0 |}.

End general.

(** * Properties *)

(** ** Strings *)

Lemma string_app_nil_r (s : string) : (s ++ "")%string = s.
Proof. induction s; cbn; [reflexivity | rewrite IHs; reflexivity]. Qed.

Lemma string_app_assoc (a b c : string) :
  ((a ++ b) ++ c)%string = (a ++ (b ++ c))%string.
Proof. induction a; cbn; [reflexivity | rewrite IHa; reflexivity]. Qed.

(** ** Decimal text and [from_chars] *)

Section Charconv.

Import charconv.

Lemma digits_string_of_uint (d : Decimal.uint) (rest : string) (acc : Z) (cnt : nat) :
  digits (NilEmpty.string_of_uint d ++ rest)%string acc cnt
  = digits rest (uint_fold d acc) (cnt + Decimal.nb_digits d)%nat.
Proof.
  revert acc cnt.
  induction d; intros acc cnt; cbn [NilEmpty.string_of_uint String.append
    digits uint_fold Decimal.nb_digits];
    try (change (digit_of "0") with (Some 0));
    try (change (digit_of "1") with (Some 1));
    try (change (digit_of "2") with (Some 2));
    try (change (digit_of "3") with (Some 3));
    try (change (digit_of "4") with (Some 4));
    try (change (digit_of "5") with (Some 5));
    try (change (digit_of "6") with (Some 6));
    try (change (digit_of "7") with (Some 7));
    try (change (digit_of "8") with (Some 8));
    try (change (digit_of "9") with (Some 9));
    cbv iota beta;
    try (rewrite IHd; f_equal; lia).
  f_equal. lia.
Qed.

Lemma uint_fold_of_uint_acc (d : Decimal.uint) (p : positive) :
  Z.pos (Pos.of_uint_acc d p) = uint_fold d (Z.pos p).
Proof.
  revert p.
  induction d; intro p; cbn [Pos.of_uint_acc uint_fold]; try reflexivity;
    rewrite IHd; f_equal; lia.
Qed.

Lemma uint_fold_of_uint (d : Decimal.uint) :
  Z.of_uint d = uint_fold d 0.
Proof.
  unfold Z.of_uint.
  induction d; cbn [Pos.of_uint uint_fold]; try reflexivity;
    try (cbn [Z.of_N]; rewrite uint_fold_of_uint_acc; reflexivity).
  exact IHd.
Qed.

Lemma nb_digits_pos (p : positive) :
  (0 < Decimal.nb_digits (Pos.to_uint p))%nat.
Proof.
  pose proof (DecimalPos.Unsigned.to_uint_nonnil p) as H.
  destruct (Pos.to_uint p); cbn; try lia. congruence.
Qed.

Lemma strip_sign_uint (T : integral) (p : positive) :
  strip_sign T (NilEmpty.string_of_uint (Pos.to_uint p))
  = (false, NilEmpty.string_of_uint (Pos.to_uint p)).
Proof.
  destruct (Pos.to_uint p); cbn; reflexivity.
Qed.

(** What [from_chars] makes of the text of an integer: the digits give
    the integer back, whatever the range of [T]. *)
Lemma digits_to_string (T : integral) (z : Z) :
  (z < 0 -> is_signed T = true) ->
  exists cnt,
    let '(neg, body) := strip_sign T (to_string z) in
    digits body 0 0 = ((if neg then - z else z), S cnt) /\ neg = (z <? 0).
Proof.
  intro Hs. unfold to_string.
  destruct z as [|p|p]; cbn [Z.to_int NilEmpty.string_of_int].
  - exists 0%nat. cbn. split; reflexivity.
  - rewrite strip_sign_uint.
    exists (pred (Decimal.nb_digits (Pos.to_uint p))).
    rewrite <- (string_app_nil_r (NilEmpty.string_of_uint _)) at 1.
    rewrite digits_string_of_uint. cbn [digits].
    pose proof (nb_digits_pos p).
    rewrite <- uint_fold_of_uint.
    change (Z.of_uint (Pos.to_uint p)) with (Z.of_int (Z.to_int (Z.pos p))).
    rewrite DecimalZ.of_to. split; [f_equal; lia | reflexivity].
  - cbn [strip_sign]. rewrite Hs by lia.
    change (("-" =? "-")%char && true)%bool with true. cbv iota.
    exists (pred (Decimal.nb_digits (Pos.to_uint p))).
    rewrite <- (string_app_nil_r (NilEmpty.string_of_uint _)) at 1.
    rewrite digits_string_of_uint. cbn [digits].
    pose proof (nb_digits_pos p).
    rewrite <- uint_fold_of_uint.
    change (Z.of_uint (Pos.to_uint p)) with (Z.of_int (Z.to_int (Z.pos p))).
    rewrite DecimalZ.of_to. split; [f_equal; lia | reflexivity].
Qed.

Lemma in_range_signed (T : integral) (z : Z) :
  in_range T z = true -> z < 0 -> is_signed T = true.
Proof.
  unfold in_range, is_signed. intros H Hz.
  apply andb_true_iff in H. destruct H as [H _].
  apply Z.leb_le in H. apply Z.ltb_lt. lia.
Qed.

(** The text of a value of [T] converts back to that value. *)
Lemma from_chars_to_string (T : integral) (z n : Z) :
  in_range T z = true ->
  ec (fst (from_chars T (to_string z) n)) = errc_ok /\
  snd (from_chars T (to_string z) n) = z.
Proof.
  intro Hr.
  destruct (digits_to_string T z (in_range_signed T z Hr)) as [cnt H].
  unfold from_chars.
  destruct (strip_sign T (to_string z)) as [neg body].
  destruct H as [Hd Hn]. rewrite Hd.
  assert (Hv : (if neg then - (if neg then - z else z) else (if neg then - z else z)) = z)
    by (destruct neg; lia).
  rewrite Hv, Hr. cbn. auto.
Qed.

(** The text of an integer outside the range of [T] is reported as
    [result_out_of_range], and the value is left alone. *)
Lemma from_chars_out_of_range (T : integral) (z n : Z) :
  (z < 0 -> is_signed T = true) ->
  in_range T z = false ->
  ec (fst (from_chars T (to_string z) n)) = result_out_of_range /\
  snd (from_chars T (to_string z) n) = n.
Proof.
  intros Hs Hr.
  destruct (digits_to_string T z Hs) as [cnt H].
  unfold from_chars.
  destruct (strip_sign T (to_string z)) as [neg body].
  destruct H as [Hd Hn]. rewrite Hd.
  assert (Hv : (if neg then - (if neg then - z else z) else (if neg then - z else z)) = z)
    by (destruct neg; lia).
  rewrite Hv, Hr. cbn. auto.
Qed.

(** [invalid_argument] is the answer exactly when no digit follows the
    optional sign. *)
Lemma from_chars_invalid_iff (T : integral) (s : string) (n : Z) :
  ec (fst (from_chars T s n)) = invalid_argument <->
  snd (digits (snd (strip_sign T s)) 0 0) = 0%nat.
Proof.
  unfold from_chars.
  destruct (strip_sign T s) as [neg body]. cbn [snd].
  destruct (digits body 0 0) as [v cnt]. cbn [snd].
  destruct cnt as [|cnt].
  - cbn. tauto.
  - destruct (in_range T (if neg then - v else v)); cbn; split; congruence.
Qed.

(** The value is replaced only when the conversion succeeds. *)
Lemma from_chars_unmodified (T : integral) (s : string) (n : Z) :
  ec (fst (from_chars T s n)) <> errc_ok ->
  snd (from_chars T s n) = n.
Proof.
  unfold from_chars.
  destruct (strip_sign T s) as [neg body].
  destruct (digits body 0 0) as [v cnt].
  destruct cnt as [|cnt]; [reflexivity|].
  destruct (in_range T (if neg then - v else v)); cbn; congruence.
Qed.

End Charconv.

(** ** [from_string_view] and the number adapter *)

Section Number.

Import charconv resp.

Lemma from_string_view_throws_iff (T : integral) (s : string) (n : Z) :
  from_string_view T s n = throw (runtime_error "from_chars: Unable to convert")
  <-> ec (fst (from_chars T s n)) = invalid_argument.
Proof.
  unfold from_string_view.
  destruct (from_chars T s n) as [r n']. cbn [fst].
  destruct (ec r); split; congruence.
Qed.

Lemma from_string_view_ok_iff (T : integral) (s : string) (n : Z) :
  from_string_view T s n = ok (snd (from_chars T s n))
  <-> ec (fst (from_chars T s n)) <> invalid_argument.
Proof.
  unfold from_string_view.
  destruct (from_chars T s n) as [r n']. cbn [fst snd].
  destruct (ec r); split; congruence.
Qed.

Lemma from_string_view_to_string (T : integral) (z n : Z) :
  in_range T z = true ->
  from_string_view T (to_string z) n = ok z.
Proof.
  intro Hr.
  destruct (from_chars_to_string T z n Hr) as [He Hv].
  rewrite <- Hv at 2.
  apply from_string_view_ok_iff. congruence.
Qed.

Lemma from_string_view_out_of_range (T : integral) (z n : Z) :
  (z < 0 -> is_signed T = true) ->
  in_range T z = false ->
  from_string_view T (to_string z) n = ok n.
Proof.
  intros Hs Hr.
  destruct (from_chars_out_of_range T z n Hs Hr) as [He Hv].
  rewrite <- Hv at 2.
  apply from_string_view_ok_iff. congruence.
Qed.

(** Every member but [on_number_impl] is the one of [response_base]. *)
Lemma response_number_other_members (T : integral) (e : event) (result : Z) :
  (forall s, e <> ev_on_number s) ->
  e <> ev_pop ->
  exists member, call (response_basic_number T) e result = throw (not_overridden member).
Proof.
  intros Hn Hp.
  destruct e; cbn; try (eexists; reflexivity).
  - exfalso. eapply Hn. reflexivity.
  - congruence.
Qed.

End Number.

(** ** The scalar adapters *)

Section Scalars.

Import charconv resp.

(** C9.  [from_string_view] raises its exception exactly when
    [from_chars] answers [invalid_argument], that is when no digit
    follows the optional sign, and it raises nothing else.  For the
    number body 9223372036854775808, one above the largest
    [long long int], [from_chars] answers [result_out_of_range],
    [from_string_view] returns normally and [on_number] of the number
    adapter leaves [result] as it found it: the value is not stored and
    no error reaches the caller. *)
Theorem from_string_view_raises_only_on_invalid_argument :
  (forall T s n,
      from_string_view T s n = throw (runtime_error "from_chars: Unable to convert")
      <-> ec (fst (from_chars T s n)) = invalid_argument)
  /\ (forall T s n,
      is_ok (from_string_view T s n) = false
      <-> snd (digits (snd (strip_sign T s)) 0 0) = 0%nat)
  /\ to_string general.too_large = "9223372036854775808"
  /\ in_range long_long_int general.too_large = false
  /\ (forall result,
      ec (fst (from_chars long_long_int (to_string general.too_large) result))
        = result_out_of_range
      /\ from_string_view long_long_int (to_string general.too_large) result
        = ok result
      /\ call response_number (ev_on_number (to_string general.too_large)) result
        = ok result).
Proof.
  split; [exact from_string_view_throws_iff|].
  split.
  { intros T s n. rewrite <- (from_chars_invalid_iff T s n).
    unfold from_string_view.
    destruct (from_chars T s n) as [r n']. cbn [fst].
    destruct (ec r); cbn; split; intro H; try reflexivity; discriminate H. }
  split; [reflexivity|].
  split; [reflexivity|].
  intro result.
  assert (Hs : general.too_large < 0 -> is_signed long_long_int = true)
    by reflexivity.
  assert (Hr : in_range long_long_int general.too_large = false)
    by reflexivity.
  split; [exact (proj1 (from_chars_out_of_range _ _ result Hs Hr))|].
  split; [exact (from_string_view_out_of_range _ _ result Hs Hr)|].
  cbn [call response_number response_basic_number on_number_impl].
  exact (from_string_view_out_of_range _ _ result Hs Hr).
Qed.

(** C6, counterexample.  The integer adapter does not accept a boolean
    node, nor a null: both end in the exception of [response_base]. *)
Lemma integer_adapter_rejects_boolean_and_null :
  call response_number (ev_on_bool "t") 0
    = throw (not_overridden "on_bool_impl")
  /\ call response_number ev_on_null 0
    = throw (not_overridden "on_null_impl").
Proof. split; reflexivity. Qed.

(** C6, amended.  The integer adapter accepts a number node and stores
    the value of its decimal body (negative values such as -3
    included); a node of any other kind, boolean and null included,
    ends the run with the exception of the member of [response_base]
    that the adapter does not override. *)
Theorem integer_adapter_accepts_numbers_only :
  (forall z result,
      in_range long_long_int z = true ->
      call response_number (ev_on_number (to_string z)) result = ok z)
  /\ (forall result,
      call response_number (ev_on_number "-3") result = ok (-3))
  /\ (forall e evs result,
      (forall s, e <> ev_on_number s) ->
      e <> ev_pop ->
      exists member,
        drive response_number (e :: evs) result
          = throw (not_overridden member)).
Proof.
  split.
  { intros z result Hr.
    cbn [call response_number response_basic_number on_number_impl].
    exact (from_string_view_to_string _ _ _ Hr). }
  split.
  { intro result.
    cbn [call response_number response_basic_number on_number_impl].
    change "-3" with (to_string (-3)).
    apply from_string_view_to_string. reflexivity. }
  intros e evs result Hn Hp.
  destruct (response_number_other_members long_long_int e result Hn Hp)
    as [member Hm].
  exists member. cbn [drive]. unfold response_number.
  rewrite Hm. reflexivity.
Qed.

(** C5, at the failing input.  [on_bool_impl] refuses a body whose size
    is not one, but a boolean whose body is the one byte x is not
    refused: the call returns normally and the adapter stores
    [false]. *)
Lemma response_bool_takes_any_byte :
  call response_bool (ev_on_bool "x") true = ok false
  /\ is_ok (call response_bool (ev_on_bool "x") true) = true.
Proof. split; reflexivity. Qed.

(** What [response_bool] makes of a body: the single byte t gives
    [true]; a body of one byte other than t (f, but x as well) gives
    [false]; the only error is the one for a body whose length is not
    one. *)
Theorem response_bool_value :
  (forall st, call response_bool (ev_on_bool "t") st = ok true)
  /\ (forall st, call response_bool (ev_on_bool "f") st = ok false)
  /\ (forall c st,
      c <> "t"%char ->
      call response_bool (ev_on_bool (String c "")) st = ok false)
  /\ (forall s st,
      String.length s <> 1%nat ->
      call response_bool (ev_on_bool s) st
        = throw (runtime_error "Bool has wrong size")).
Proof.
  split; [reflexivity|]. split; [reflexivity|]. split.
  - intros c st Hc. cbn.
    destruct (Ascii.eqb_spec c "t"); [contradiction | reflexivity].
  - intros s st Hs.
    cbn [call response_bool on_bool_impl].
    destruct (Z.eqb_spec (Z.of_nat (String.length s)) 1) as [E|E];
      [lia | reflexivity].
Qed.

Lemma drive_streamed_parts (chunks : list string) (result : string) :
  drive response_streamed_string (List.map ev_on_streamed_string_part chunks) result
  = ok (result ++ String.concat "" chunks)%string.
Proof.
  revert result.
  induction chunks as [|c chunks IH]; intro result.
  - cbn. rewrite string_app_nil_r. reflexivity.
  - cbn [List.map drive call response_streamed_string
         on_streamed_string_part_impl bind].
    rewrite IH. f_equal.
    destruct chunks as [|c' chunks'].
    + cbn. rewrite !string_app_nil_r. reflexivity.
    + cbn [String.concat]. cbn [String.append].
      rewrite string_app_assoc. reflexivity.
Qed.

(** C7.  Driven over the parts of a streamed string, the streamed
    string adapter ends with the bodies of the parts, in their order,
    appended to its result; a part without body changes nothing.  For
    the parts Hell, o wor and d of the reply of test_streamed_string
    the result is Hello word. *)
Theorem streamed_string_is_concatenation :
  (forall chunks result,
      drive response_streamed_string
            (List.map ev_on_streamed_string_part chunks) result
        = ok (result ++ String.concat "" chunks)%string)
  /\ (forall result,
      call response_streamed_string (ev_on_streamed_string_part "") result
        = ok result)
  /\ drive response_streamed_string
           (List.map ev_on_streamed_string_part general.streamed_hello_parts) ""
     = ok "Hello word".
Proof.
  split; [exact drive_streamed_parts|].
  split.
  - intro result. cbn. rewrite string_app_nil_r. reflexivity.
  - rewrite drive_streamed_parts. reflexivity.
Qed.

End Scalars.

(** ** The tree adapter *)

Section Tree.

Import resp resp.response_tree.

Lemma unsnoc_app {A : Type} (l : list A) (x : A) :
  unsnoc (l ++ [x]) = Some (l, x).
Proof.
  induction l as [|y l IH]; cbn; [reflexivity|].
  rewrite IH. reflexivity.
Qed.

Lemma unsnoc_Some {A : Type} (l init : list A) (back : A) :
  unsnoc l = Some (init, back) -> l = init ++ [back].
Proof.
  revert init back.
  induction l as [|y l IH]; intros init back; cbn; [discriminate|].
  destruct (unsnoc l) as [[i b]|] eqn:E.
  - intro H. injection H as <- <-. rewrite (IH i b eq_refl). reflexivity.
  - intro H. injection H as <- <-.
    destruct l; [reflexivity|]. cbn in E.
    destruct (unsnoc l) as [[? ?]|]; discriminate.
Qed.

(** The first call of a run that ends normally: [E] names its outcome
    [st1], and [H] becomes the rest of the run. *)
Ltac first_call H st1 E :=
  cbn [drive] in H;
  match type of H with
  | (_ <- ?c ;; _) = ok _ =>
      destruct c as [st1|] eqn:E; [cbn [bind] in H | discriminate H]
  end.

Lemma drive_app {S : Type} (r : response_base S) (a b : list event) (st : S) :
  drive r (a ++ b) st = (st' <- drive r a st ;; drive r b st').
Proof.
  revert st.
  induction a as [|e a IH]; intro st; cbn; [reflexivity|].
  destruct (call r e st); cbn; [apply IH | reflexivity].
Qed.

(** What the two private members do to the state. *)
Lemma add_aggregate_spec (n : Z) (ty : type) (st : state) :
  0 <= n ->
  add_aggregate n ty st
  = ok {| result := if depth_ st =? 0 then result st
                    else result st ++ [ {| depth := depth_ st; t := ty;
                                           expected_size := n; value := [] |} ];
          depth_ := depth_ st + 1 |}.
Proof.
  intro Hn. unfold add_aggregate.
  destruct (Z.ltb_spec n 0) as [H|_]; [lia|].
  destruct (depth_ st =? 0); reflexivity.
Qed.

(** A header with a negative size raises [std::length_error]. *)
Lemma add_aggregate_negative (n : Z) (ty : type) (st : state) :
  n < 0 -> add_aggregate n ty st = throw length_error.
Proof.
  intro Hn. unfold add_aggregate.
  destruct (Z.ltb_spec n 0) as [_|H]; [reflexivity | lia].
Qed.

(** A header that is accepted has a size that is not negative. *)
Lemma add_aggregate_ok (n : Z) (ty : type) (st st' : state) :
  add_aggregate n ty st = ok st' ->
  0 <= n /\
  st' = {| result := if depth_ st =? 0 then result st
                     else result st ++ [ {| depth := depth_ st; t := ty;
                                            expected_size := n; value := [] |} ];
           depth_ := depth_ st + 1 |}.
Proof.
  intro H. destruct (Z.ltb_spec n 0) as [Hn|Hn].
  - rewrite (add_aggregate_negative n ty st Hn) in H. discriminate H.
  - rewrite (add_aggregate_spec n ty st Hn) in H. injection H as <-.
    split; [exact Hn | reflexivity].
Qed.

Lemma call_select (ty : type) (n : Z) (st : state) :
  call vtable (select_event ty n) st = add_aggregate n (aggregate_type ty) st.
Proof. destruct ty; reflexivity. Qed.

Lemma call_scalar (ty : type) (s : string) (st : state) :
  exists ty', call vtable (scalar_event ty s) st = add s ty' st.
Proof. destruct ty; eexists; reflexivity. Qed.

(** Every call of the tree adapter is [add_aggregate], [add] or [pop]. *)
Lemma call_cases (e : event) (st : state) :
  (exists n ty, opens e = true /\ closes e = false /\
                call vtable e st = add_aggregate n ty st)
  \/ (exists s ty, opens e = false /\ closes e = false /\
                   call vtable e st = add s ty st)
  \/ (e = ev_pop /\
      call vtable e st = ok {| result := result st; depth_ := depth_ st - 1 |}).
Proof.
  destruct e; cbn;
    try (left; eexists _, _; repeat split; reflexivity);
    try (right; left; eexists _, _; repeat split; reflexivity).
  right; right. split; reflexivity.
Qed.

Lemma add_depth (s : string) (ty : type) (st st' : state) :
  add s ty st = ok st' -> depth_ st' = depth_ st.
Proof.
  unfold add.
  destruct (unsnoc (result st)) as [[init back]|]; [|discriminate].
  destruct (Z.of_nat (List.length (value back)) =? expected_size back);
    intro H; injection H as <-; reflexivity.
Qed.

(** One call moves the depth counter by what it opens and closes. *)
Lemma call_depth (e : event) (st st' : state) :
  call vtable e st = ok st' ->
  depth_ st' = depth_ st + unclosed [e].
Proof.
  intro H. cbn [unclosed].
  destruct (call_cases e st) as [(n & ty & -> & -> & E)
                                | [(s & ty & -> & -> & E) | (-> & E)]];
    rewrite E in H.
  - apply add_aggregate_ok in H. destruct H as [_ ->]. cbn. lia.
  - rewrite (add_depth _ _ _ _ H). lia.
  - injection H as <-. cbn. lia.
Qed.

Lemma unclosed_app (a b : list event) :
  unclosed (a ++ b) = unclosed a + unclosed b.
Proof.
  induction a as [|e a IH]; cbn [List.app unclosed]; [reflexivity|].
  rewrite IH. lia.
Qed.

(** The depth counter is the number of aggregates opened and not yet
    closed. *)
Lemma tree_depth_counter (evs : list event) (st st' : state) :
  drive vtable evs st = ok st' ->
  depth_ st' = depth_ st + unclosed evs.
Proof.
  revert st.
  induction evs as [|e evs IH]; intros st H.
  - cbn in H. injection H as <-. cbn. lia.
  - first_call H st1 E. rewrite (IH _ H), (call_depth _ _ _ E).
    change (e :: evs) with ([e] ++ evs). rewrite unclosed_app. lia.
Qed.

(** An element that a call appends carries the depth counter of that
    moment. *)
Lemma tree_records_counter (e : event) (st st' : state) (new : elem) :
  call vtable e st = ok st' ->
  result st' = result st ++ [new] ->
  depth new = depth_ st.
Proof.
  intros E R.
  assert (Hlen : forall l : list elem, l <> l ++ [new]).
  { intros l H. apply (f_equal (@List.length _)) in H.
    rewrite List.length_app in H. cbn in H. lia. }
  destruct (call_cases e st) as [(n & ty & _ & _ & C)
                                | [(s & ty & _ & _ & C) | (_ & C)]];
    rewrite C in E.
  - apply add_aggregate_ok in E. destruct E as [_ ->].
    cbn in R. destruct (depth_ st =? 0).
    + exfalso. exact (Hlen _ R).
    + apply List.app_inv_head in R. injection R as <-. reflexivity.
  - unfold add in E.
    destruct (unsnoc (result st)) as [[init back]|] eqn:U; [|discriminate].
    apply unsnoc_Some in U.
    destruct (Z.of_nat (List.length (value back)) =? expected_size back);
      injection E as <-; cbn in R.
    + apply List.app_inv_head in R. injection R as <-. reflexivity.
    + rewrite U in R. apply (f_equal (@List.length _)) in R.
      rewrite !List.length_app in R. cbn in R. lia.
  - injection E as <-. cbn in R. exfalso. exact (Hlen _ R).
Qed.

(** The depth invariant of the tree adapter: whatever the calls so far,
    an element recorded by the next call has for depth the number of
    aggregate headers opened and not yet closed at that moment. *)
Lemma tree_records_unclosed (pre : list event) (e : event) (st st' : state) (new : elem) :
  drive vtable pre clear = ok st ->
  call vtable e st = ok st' ->
  result st' = result st ++ [new] ->
  depth new = unclosed pre.
Proof.
  intros Hpre E R.
  rewrite (tree_records_counter e st st' new E R).
  rewrite (tree_depth_counter pre clear st Hpre). reflexivity.
Qed.

(** A scalar goes into the last element as long as that element holds
    fewer values than it expects. *)
Lemma tree_absorbs_scalars (ss : list (type * string)) :
  forall (init : list elem) (d : Z) (ty : type) (n : Z) (vs : list string) (k : Z),
    Z.of_nat (List.length vs) + Z.of_nat (List.length ss) <= n ->
    drive vtable
          (List.map (fun ts => scalar_event (fst ts) (snd ts)) ss)
          {| result := init ++ [ {| depth := d; t := ty; expected_size := n;
                                    value := vs |} ];
             depth_ := k |}
    = ok {| result := init ++ [ {| depth := d; t := ty; expected_size := n;
                                   value := vs ++ List.map snd ss |} ];
            depth_ := k |}.
Proof.
  induction ss as [|[ty' s] ss IH]; intros init d ty n vs k Hn.
  - cbn. rewrite List.app_nil_r. reflexivity.
  - cbn [List.map fst snd drive].
    destruct (call_scalar ty' s
                {| result := init ++ [ {| depth := d; t := ty; expected_size := n;
                                          value := vs |} ];
                   depth_ := k |}) as [ty'' ->].
    unfold add. cbn [result]. rewrite unsnoc_app. cbn [value expected_size].
    cbn [List.length] in Hn.
    destruct (Z.eqb_spec (Z.of_nat (List.length vs)) n) as [E|E]; [lia|].
    cbn [bind depth t expected_size value depth_].
    rewrite IH.
    + rewrite <- List.app_assoc. reflexivity.
    + rewrite List.length_app. cbn [List.length]. lia.
Qed.

Lemma tree_records_container (c : type * list (type * string)) (st : state) :
  depth_ st <> 0 ->
  drive vtable (container_calls c) st
  = ok {| result := result st ++
                    [ {| depth := depth_ st; t := aggregate_type (fst c);
                         expected_size := Z.of_nat (List.length (snd c));
                         value := List.map snd (snd c) |} ];
          depth_ := depth_ st |}.
Proof.
  intro Hd. unfold container_calls. cbn [drive].
  rewrite call_select, add_aggregate_spec by lia.
  destruct (Z.eqb_spec (depth_ st) 0) as [E|E]; [contradiction|].
  cbn [bind]. rewrite drive_app.
  rewrite tree_absorbs_scalars by (cbn [List.length]; lia).
  cbn. do 2 f_equal. lia.
Qed.

Lemma tree_records_containers (cs : list (type * list (type * string))) :
  forall acc : list elem,
    drive vtable (List.flat_map container_calls cs)
          {| result := acc; depth_ := 1 |}
    = ok {| result := acc ++ List.map flat_elem cs; depth_ := 1 |}.
Proof.
  induction cs as [|c cs IH]; intro acc.
  - cbn. rewrite List.app_nil_r. reflexivity.
  - cbn [List.map List.flat_map]. rewrite drive_app.
    rewrite tree_records_container by (cbn; lia).
    cbn [bind result depth_]. rewrite IH.
    rewrite <- List.app_assoc. reflexivity.
Qed.

(** While an aggregate is open, a call records nothing at depth 0. *)
Lemma call_below_root (e : event) (st st' : state) :
  1 <= depth_ st ->
  Forall below_root (result st) ->
  call vtable e st = ok st' ->
  Forall below_root (result st').
Proof.
  intros Hd Hf H.
  destruct (call_cases e st) as [(n & ty & _ & _ & C)
                                | [(s & ty & _ & _ & C) | (_ & C)]];
    rewrite C in H.
  - apply add_aggregate_ok in H. destruct H as [_ ->]. cbn.
    destruct (depth_ st =? 0); [exact Hf|].
    apply List.Forall_app. split; [exact Hf|].
    constructor; [exact Hd | constructor].
  - unfold add in H.
    destruct (unsnoc (result st)) as [[init back]|] eqn:U; [|discriminate].
    apply unsnoc_Some in U. rewrite U in Hf.
    apply List.Forall_app in Hf. destruct Hf as [Hi Hb].
    destruct (Z.of_nat (List.length (value back)) =? expected_size back);
      injection H as <-; cbn.
    + rewrite U. apply List.Forall_app. split.
      * apply List.Forall_app. split; assumption.
      * constructor; [exact Hd | constructor].
    + apply List.Forall_app. split; [assumption|].
      constructor; [|constructor].
      inversion Hb; subst. assumption.
  - injection H as <-. exact Hf.
Qed.

Lemma run_below_root (evs : list event) :
  forall st st',
    drive vtable evs st = ok st' ->
    Forall below_root (result st) ->
    open_before_each (depth_ st) evs = true ->
    Forall below_root (result st').
Proof.
  induction evs as [|e evs IH]; intros st st' H Hf Hopen.
  - cbn in H. injection H as <-. exact Hf.
  - first_call H st1 E. cbn [open_before_each] in Hopen.
    apply andb_true_iff in Hopen. destruct Hopen as [Hd Hrest].
    apply Z.leb_le in Hd.
    apply (IH st1 st' H).
    + exact (call_below_root e st st1 Hd Hf E).
    + rewrite (call_depth _ _ _ E). exact Hrest.
Qed.

(** C8, at the failing input.  The reply to the EXEC of test_general is
    an array of two simple strings.  The header of the root records
    nothing, so the first child reaches [add] while [result] is empty
    and the assertion of [add] fails: no child is recorded, at depth 1
    or otherwise.  The same holds for every reply whose root aggregate,
    of a size that is not negative, has a scalar for first child.  (A
    header with a negative size does not get that far: [reserve] raises
    [std::length_error], and nothing is recorded either.) *)
Theorem exec_reply_of_scalars_fails_assertion :
  drive vtable general.exec_calls clear
    = throw (assertion_failure "!std::empty(result)")
  /\ (forall ty n ty' s evs,
      0 <= n ->
      drive vtable (select_event ty n :: scalar_event ty' s :: evs) clear
        = throw (assertion_failure "!std::empty(result)"))
  /\ (forall ty n evs,
      n < 0 ->
      drive vtable (select_event ty n :: evs) clear = throw length_error).
Proof.
  split; [reflexivity|]. split.
  - intros ty n ty' s evs Hn. cbn [drive].
    rewrite call_select, add_aggregate_spec by exact Hn.
    cbn [bind clear depth_ result].
    change (0 =? 0) with true. cbv iota.
    match goal with
    | |- (st' <- call vtable _ ?s0 ;; _) = _ =>
        destruct (call_scalar ty' s s0) as [ty'' ->]
    end.
    reflexivity.
  - intros ty n evs Hn. cbn [drive].
    rewrite call_select, add_aggregate_negative by exact Hn. reflexivity.
Qed.

(** C10, counterexample.  The root of this reply declares one child,
    and two elements are recorded: the child, and at depth 2 the array
    inside it. *)
Lemma nested_reply_records_two_elements :
  general.nested_calls
    = [ ev_select_array 1; ev_select_array 1; ev_select_array 1;
        ev_on_blob_string "x"; ev_pop; ev_pop; ev_pop ]
  /\ drive vtable general.nested_calls clear
    = ok {| result := [ {| depth := 1; t := array; expected_size := 1;
                           value := [] |};
                        {| depth := 2; t := array; expected_size := 1;
                           value := ["x"] |} ];
            depth_ := 0 |}.
Proof. split; reflexivity. Qed.

(** C10, amended.  The tree adapter never records the root aggregate:
    a header that arrives at depth 0 with a size that is not negative
    leaves [result] alone and makes the depth counter 1 (a negative
    size makes [reserve] raise [std::length_error], and the run ends
    there).  On a cleared adapter, in a run that ends
    normally and in which some aggregate is open before every call
    but the first (the calls of one reply with an aggregate root), every
    recorded element has depth at least 1.  The recorded elements
    are not the children of the root in general: aggregates nested
    deeper are recorded too, and scalars go into the last element.
    When the children of the root are containers, each holding scalars
    only, they are exactly the children, each at depth 1 with its
    scalars as its values. *)
Theorem tree_adapter_skips_the_root :
  (forall n ty st,
      0 <= n ->
      depth_ st = 0 ->
      add_aggregate n ty st = ok {| result := result st; depth_ := 1 |})
  /\ (forall e evs st',
      drive vtable (e :: evs) clear = ok st' ->
      open_before_each (unclosed [e]) evs = true ->
      Forall (fun x => 1 <= depth x) (result st'))
  /\ (forall ty n cs,
      0 <= n ->
      drive vtable
            (select_event ty n :: List.flat_map container_calls cs ++ [ev_pop])
            clear
        = ok {| result := List.map flat_elem cs; depth_ := 0 |}).
Proof.
  split.
  { intros n ty st Hn Hd. rewrite add_aggregate_spec by exact Hn.
    rewrite Hd. reflexivity. }
  split.
  { intros e evs st' H Hopen. first_call H st1 E.
    apply (run_below_root evs st1 st' H).
    - destruct (call_cases e clear) as [(n & ty & _ & _ & C)
                                       | [(s & ty & _ & _ & C) | (_ & C)]];
        rewrite C in E.
      + apply add_aggregate_ok in E. destruct E as [_ ->]. constructor.
      + discriminate E.
      + injection E as <-. constructor.
    - rewrite (call_depth _ _ _ E). exact Hopen. }
  intros ty n cs Hn. cbn [drive].
  rewrite call_select, add_aggregate_spec by exact Hn.
  cbn [bind clear depth_ result]. change (0 =? 0) with true. cbv iota.
  rewrite drive_app. change (0 + 1) with 1.
  rewrite tree_records_containers. reflexivity.
Qed.

End Tree.

(** ** The framing of the test inputs *)

Section Framing.

Import resp.

(** The bytes of the replies of test_streamed_string and of the EXEC of
    test_general split into the calls used above; the zero-length chunk
    ends the streamed string and gives rise to no call. *)
Lemma wire_frames_the_test_replies :
  wire.parse_reply general.streamed_hello
    = wire.complete
        (List.map ev_on_streamed_string_part general.streamed_hello_parts) ""
  /\ wire.read_one response_streamed_string general.streamed_hello ""
    = wire.complete (ok "Hello word") ""
  /\ wire.parse_reply general.exec_reply_bytes
    = wire.complete general.exec_calls ""
  /\ wire.read_one response_tree.vtable general.exec_reply_bytes
                   response_tree.clear
    = wire.complete (throw (assertion_failure "!std::empty(result)")) "".
Proof. repeat split; vm_compute; reflexivity. Qed.

End Framing.

(** ** The order of service on one connection *)

Section Engine.

Import charconv resp engine.

Lemma completed_slots_app (l l' : list completion) :
  completed_slots (l ++ l') = completed_slots l ++ completed_slots l'.
Proof.
  induction l as [|c l IH]; cbn; [reflexivity|].
  destruct c; cbn; rewrite IH; reflexivity.
Qed.

Lemma pending_slots_flush (c : conn_state) (f : list slot) :
  pending_slots (List.map (fun s => if may_flush c s then flushed s else s) f)
  = pending_slots f.
Proof.
  unfold pending_slots. rewrite List.map_map.
  apply List.map_ext. intro s. destruct (may_flush c s); reflexivity.
Qed.

(** Where a handshake request goes. *)
Lemma insert_ahead_of_queued_split (s : slot) (l : list slot) :
  exists pre post,
    l = pre ++ post /\
    insert_ahead_of_queued s l = pre ++ s :: post /\
    Forall (fun x => is_queued x = false) pre /\
    (forall x post', post = x :: post' -> is_queued x = true).
Proof.
  induction l as [|y l IH].
  - exists [], []. cbn. repeat split; [constructor | intros; discriminate].
  - cbn [insert_ahead_of_queued]. destruct (is_queued y) eqn:Q.
    + exists [], (y :: l). cbn. repeat split; [constructor|].
      intros x post' H. injection H as <- _. exact Q.
    + destruct IH as (pre & post & Hl & Hi & Hp & Hq).
      exists (y :: pre), post. cbn. rewrite Hi, <- Hl.
      repeat split; [constructor; assumption | exact Hq].
Qed.

(** The reader serves the head of the FIFO, and nothing else changes
    the order. *)
Lemma read_keeps_order (e : engine) :
  service_order (read e) = service_order e.
Proof.
  unfold read.
  destruct (negb (is_running (conn e))); [reflexivity|].
  destruct (wire.parse_reply (rbuf e)) as [| |evs rest]; try reflexivity.
  destruct (is_push evs); [reflexivity|].
  destruct (fifo e) as [|s others] eqn:F; [reflexivity|].
  destruct (state s); try reflexivity.
  destruct (remaining s) as [|k]; [reflexivity|].
  destruct k as [|k]; unfold service_order; cbn; rewrite F.
  - rewrite completed_slots_app. cbn. rewrite <- List.app_assoc. reflexivity.
  - reflexivity.
Qed.

Lemma step_order_plain (e : engine) (x : action) :
  plain_action x ->
  service_order (step e x) = service_order e ++ newly_enqueued e x.
Proof.
  intro Hx. destruct x as [h r a| | |bytes|]; cbn [step newly_enqueued].
  - cbn in Hx. unfold async_exec, service_order.
    destruct (negb (is_running (conn e)) && cancel_if_not_connected (cfg r)).
    + cbn. rewrite List.removelast_last, completed_slots_app. cbn.
      rewrite !List.app_nil_r. reflexivity.
    + rewrite Hx. cbn. unfold pending_slots. rewrite List.map_app. cbn.
      rewrite List.app_assoc. reflexivity.
  - rewrite List.app_nil_r. reflexivity.
  - rewrite List.app_nil_r. unfold service_order, write. cbn.
    rewrite pending_slots_flush. reflexivity.
  - rewrite List.app_nil_r. reflexivity.
  - rewrite List.app_nil_r. apply read_keeps_order.
Qed.

Lemma without_priority_app (l l' : list (nat * request)) :
  without_priority (l ++ l') = without_priority l ++ without_priority l'.
Proof. apply List.filter_app. Qed.

Lemma step_order (e : engine) (x : action) :
  without_priority (service_order (step e x))
  = without_priority (service_order e) ++ without_priority (newly_enqueued e x).
Proof.
  destruct x as [h r a| | |bytes|];
    try (rewrite step_order_plain by exact I; apply without_priority_app).
  destruct (has_hello_priority r) eqn:P.
  - cbn [step newly_enqueued]. unfold async_exec, service_order.
    destruct (negb (is_running (conn e)) && cancel_if_not_connected (cfg r)).
    + cbn. rewrite List.removelast_last, completed_slots_app. cbn.
      rewrite !List.app_nil_r. reflexivity.
    + rewrite P. cbn [fifo completions with_fifo].
      rewrite List.removelast_last.
      destruct (insert_ahead_of_queued_split (new_slot h r a) (fifo e))
        as (pre & post & Hl & Hi & _).
      rewrite Hi, Hl. unfold pending_slots.
      rewrite !List.map_app. cbn [List.map].
      rewrite !without_priority_app. cbn [without_priority List.filter snd handle req new_slot].
      rewrite P. cbn. rewrite List.app_nil_r. reflexivity.
  - rewrite step_order_plain by exact P. apply without_priority_app.
Qed.

Lemma run_order (tr : list action) :
  forall e,
    without_priority (service_order (run tr e))
    = without_priority (service_order e) ++ without_priority (enqueued tr e).
Proof.
  induction tr as [|x tr IH]; intro e.
  - cbn. rewrite List.app_nil_r. reflexivity.
  - cbn [run fold_left]. fold (run tr (step e x)).
    rewrite IH, step_order, <- List.app_assoc. f_equal.
    rewrite <- without_priority_app. f_equal.
    destruct x; cbn [enqueued newly_enqueued]; try reflexivity.
    destruct (negb (is_running (conn e)) && cancel_if_not_connected (cfg r));
      reflexivity.
Qed.

Lemma run_order_plain (tr : list action) :
  forall e,
    Forall plain_action tr ->
    service_order (run tr e) = service_order e ++ enqueued tr e.
Proof.
  induction tr as [|x tr IH]; intros e H.
  - cbn. rewrite List.app_nil_r. reflexivity.
  - inversion H as [|? ? Hx Htr]; subst.
    cbn [run fold_left]. fold (run tr (step e x)).
    rewrite (IH _ Htr), (step_order_plain _ _ Hx), <- List.app_assoc. f_equal.
    destruct x; cbn [enqueued newly_enqueued]; try reflexivity.
    destruct (negb (is_running (conn e)) && cancel_if_not_connected (cfg r));
      reflexivity.
Qed.


















(** C2, counterexample.  In the run of the test hello_priority the
    slots are submitted in the order 1, 2, 3 and complete in the order
    3, 1, 2. *)
Lemma completion_order_is_not_submission_order :
  List.map fst (enqueued conn_exec.hello_priority_run init) = [1; 2; 3]%nat
  /\ List.map fst
       (completed_slots (completions (run conn_exec.hello_priority_run init)))
     = [3; 1; 2]%nat
  /\ List.map fst
       (completed_slots (completions (run conn_exec.hello_priority_run init)))
     <> List.map fst (enqueued conn_exec.hello_priority_run init).
Proof.
  assert (E : List.map fst (enqueued conn_exec.hello_priority_run init)
              = [1; 2; 3]%nat) by (vm_compute; reflexivity).
  assert (C : List.map fst
                (completed_slots
                   (completions (run conn_exec.hello_priority_run init)))
              = [3; 1; 2]%nat) by (vm_compute; reflexivity).
  split; [exact E|]. split; [exact C|].
  rewrite E, C. discriminate.
Qed.

(** C2, amended.  For every interleaving of submissions with the
    actions of the connection, the requests that are not handshake
    requests are served in the order of their submission: the completed
    slots followed by the pending slots of the FIFO are, handshake
    requests apart, the submitted slots in submission order.  When no
    handshake request is submitted, the completed slots followed by the
    pending ones are exactly the submitted ones in submission order, so
    that a slot completes after all the slots submitted before it. *)
Theorem requests_without_priority_are_served_in_order :
  (forall tr,
      without_priority
        (completed_slots (completions (run tr init))
         ++ pending_slots (fifo (run tr init)))
      = without_priority (enqueued tr init))
  /\ (forall tr,
      Forall plain_action tr ->
      completed_slots (completions (run tr init))
      ++ pending_slots (fifo (run tr init))
      = enqueued tr init).
Proof.
  split.
  - intro tr. exact (run_order tr init).
  - intros tr H. exact (run_order_plain tr init H).
Qed.

(** C4.  A request whose config has [cancel_if_not_connected], submitted
    while the engine is not running, completes at once with
    [not_connected]; the FIFO is as it was before the submission, so no
    slot is left queued and an empty FIFO remains empty. *)
Theorem cancel_if_not_connected_completes_at_once
  (e : engine) (h : nat) (r : request) (a : adapter) :
  is_running (conn e) = false ->
  cancel_if_not_connected (cfg r) = true ->
  completions (async_exec h r a e)
    = completions e ++ [submit_refused h r not_connected]
  /\ fifo (async_exec h r a e) = fifo e
  /\ (fifo e = [] -> fifo (async_exec h r a e) = [])
  /\ enqueued [submit h r a] e = [].
Proof.
  intros R C. unfold async_exec. cbn [enqueued].
  rewrite R, C. cbn. rewrite List.removelast_last.
  repeat split. auto.
Qed.

(** The submission of the test cancel_request_if_not_connected, on an
    engine that was never started. *)
Lemma cancel_if_not_connected_witness :
  completions (async_exec 1 conn_exec.cancel_request (tuple []) init)
    = [submit_refused 1 conn_exec.cancel_request not_connected]
  /\ fifo (async_exec 1 conn_exec.cancel_request (tuple []) init) = [].
Proof.
  destruct (cancel_if_not_connected_completes_at_once
              init 1 conn_exec.cancel_request (tuple []) eq_refl eq_refl)
    as (Hc & Hf & _).
  split; [exact Hc | exact Hf].
Defined.


Lemma requests_without_priority_witness :
  completed_slots (completions (run conn_exec.wrong_response_data_type_run init))
  ++ pending_slots (fifo (run conn_exec.wrong_response_data_type_run init))
  = enqueued conn_exec.wrong_response_data_type_run init.
Proof.
  apply (proj2 requests_without_priority_are_served_in_order).
  repeat constructor.
Defined.

(** One turn of the reader on a reply that is not a push, with the head
    slot awaiting replies. *)
Lemma read_advances (e : engine) (s : slot) (others : list slot) (k : nat)
      (evs : list event) (rest : string) :
  is_running (conn e) = true ->
  fifo e = s :: others ->
  state s = awaiting_reply ->
  remaining s = S k ->
  wire.parse_reply (rbuf e) = wire.complete evs rest ->
  is_push evs = false ->
  rbuf (read e) = rest
  /\ (k = 0%nat ->
      fifo (read e) = others /\
      completions (read e)
      = completions e ++
        [slot_completed (handle s) (req s)
           (first_error (outcome s) (adapters s (consumed s) evs))])
  /\ (k <> 0%nat ->
      fifo (read e)
      = account s k (first_error (outcome s) (adapters s (consumed s) evs))
          :: others /\
      completions (read e) = completions e).
Proof.
  intros R F St Rm Pr Pu. unfold read.
  rewrite R, Pr, Pu, F, St, Rm. cbn [negb].
  destruct k as [|k]; cbn; (split; [reflexivity|]); split; intro H;
    try discriminate H; try (exfalso; apply H; reflexivity);
    split; reflexivity.
Qed.

End Engine.

(** ** Instances *)

Section Instances.

Import charconv resp resp.response_tree.

(** The numbers of test_number, and a node that is not a number. *)
Lemma integer_adapter_witness :
  call response_number (ev_on_number (to_string 1111111)) 0 = ok 1111111
  /\ exists member,
      drive response_number [ev_on_simple_string "OK"] 0
        = throw (not_overridden member).
Proof.
  destruct integer_adapter_accepts_numbers_only as (H1 & _ & H3).
  split.
  - apply H1. reflexivity.
  - apply H3; [intros s H | intro H]; discriminate H.
Defined.

Lemma response_bool_witness :
  call response_bool (ev_on_bool "0") true = ok false
  /\ call response_bool (ev_on_bool "") true
    = throw (runtime_error "Bool has wrong size").
Proof.
  destruct response_bool_value as (_ & _ & H3 & H4).
  split.
  - apply H3. intro H. discriminate H.
  - apply H4. intro H. discriminate H.
Defined.

(** The reply to an EXEC that queued LRANGE and HGETALL. *)
Lemma tree_adapter_witness :
  drive vtable
        (ev_select_array 2
           :: List.flat_map container_calls general.exec_containers ++ [ev_pop])
        clear
  = ok {| result :=
            [ {| depth := 1; t := array; expected_size := 2;
                 value := ["1"; "2"] |};
              {| depth := 1; t := map; expected_size := 2;
                 value := ["key"; "val"] |} ];
          depth_ := 0 |}
  /\ Forall (fun x => 1 <= depth x)
       [ {| depth := 1; t := array; expected_size := 1; value := [] |};
         {| depth := 2; t := array; expected_size := 1; value := ["x"] |} ].
Proof.
  destruct tree_adapter_skips_the_root as (_ & H2 & H3).
  split.
  - apply (H3 array 2 general.exec_containers). discriminate.
  - refine (H2 (ev_select_array 1)
               [ ev_select_array 1; ev_select_array 1;
                 ev_on_blob_string "x"; ev_pop; ev_pop; ev_pop ]
               {| result := _; depth_ := 0 |} eq_refl eq_refl).
Defined.

End Instances.

(** ** Numbers followed by other bytes, and runs of numbers *)

Section NumericPrefix.

Import charconv resp.

Lemma digits_count (s : string) (acc : Z) (cnt : nat) :
  (cnt <= snd (digits s acc cnt))%nat.
Proof.
  revert acc cnt.
  induction s as [|c s IH]; intros acc cnt; cbn [digits]; [cbn; lia|].
  destruct (digit_of c) as [d|]; [|cbn; lia].
  specialize (IH (10 * acc + d) (S cnt)). lia.
Qed.

(** Where no digit comes first, [digits] reads nothing. *)
Lemma digits_stop (rest : string) (acc : Z) (cnt : nat) :
  snd (digits rest 0 0) = 0%nat -> digits rest acc cnt = (acc, cnt).
Proof.
  destruct rest as [|c rest]; cbn [digits]; [reflexivity|].
  destruct (digit_of c) as [d|]; [|reflexivity].
  intro H. pose proof (digits_count rest (10 * 0 + d) 1). lia.
Qed.

Lemma strip_sign_uint_app (T : integral) (p : positive) (rest : string) :
  strip_sign T (NilEmpty.string_of_uint (Pos.to_uint p) ++ rest)%string
  = (false, (NilEmpty.string_of_uint (Pos.to_uint p) ++ rest)%string).
Proof.
  pose proof (DecimalPos.Unsigned.to_uint_nonnil p) as H.
  destruct (Pos.to_uint p); cbn; try reflexivity. congruence.
Qed.

Lemma digits_to_string_app (T : integral) (z : Z) (rest : string) :
  (z < 0 -> is_signed T = true) ->
  snd (digits rest 0 0) = 0%nat ->
  exists cnt,
    let '(neg, body) := strip_sign T (to_string z ++ rest)%string in
    digits body 0 0 = ((if neg then - z else z), S cnt) /\ neg = (z <? 0).
Proof.
  intros Hs Hrest. unfold to_string.
  destruct z as [|p|p]; cbn [Z.to_int NilEmpty.string_of_int].
  - exists 0%nat. cbn [NilEmpty.string_of_uint String.append strip_sign].
    change (("0" =? "-")%char && is_signed T)%bool with false. cbv iota.
    cbn [digits]. change (digit_of "0") with (Some 0). cbv iota.
    rewrite (digits_stop rest _ _ Hrest). split; reflexivity.
  - rewrite strip_sign_uint_app.
    exists (pred (Decimal.nb_digits (Pos.to_uint p))).
    rewrite digits_string_of_uint, (digits_stop rest _ _ Hrest).
    pose proof (nb_digits_pos p).
    rewrite <- uint_fold_of_uint.
    change (Z.of_uint (Pos.to_uint p)) with (Z.of_int (Z.to_int (Z.pos p))).
    rewrite DecimalZ.of_to. split; [f_equal; lia | reflexivity].
  - cbn [String.append strip_sign]. rewrite Hs by lia.
    change (("-" =? "-")%char && true)%bool with true. cbv iota.
    exists (pred (Decimal.nb_digits (Pos.to_uint p))).
    rewrite digits_string_of_uint, (digits_stop rest _ _ Hrest).
    pose proof (nb_digits_pos p).
    rewrite <- uint_fold_of_uint.
    change (Z.of_uint (Pos.to_uint p)) with (Z.of_int (Z.to_int (Z.pos p))).
    rewrite DecimalZ.of_to. split; [f_equal; lia | reflexivity].
Qed.

(** X1.  [from_string_view] reads the longest numeric prefix of the
    body and says nothing about what follows it: the text of a value
    [z] of [T], followed by any bytes that do not start with a digit,
    converts to [z] without an exception.  The bodies 12abc and -3.7
    give 12 and -3. *)
Theorem from_string_view_reads_the_numeric_prefix
  (T : integral) (z : Z) (rest : string) (n : Z) :
  in_range T z = true ->
  snd (digits rest 0 0) = 0%nat ->
  from_string_view T (to_string z ++ rest)%string n = ok z.
Proof.
  intros Hr Hrest.
  destruct (digits_to_string_app T z rest (in_range_signed T z Hr) Hrest)
    as [cnt H].
  unfold from_string_view, from_chars.
  destruct (strip_sign T (to_string z ++ rest)%string) as [neg body].
  destruct H as [Hd Hn]. rewrite Hd.
  assert (Hv : (if neg then - (if neg then - z else z)
                else (if neg then - z else z)) = z)
    by (destruct neg; lia).
  rewrite Hv, Hr. reflexivity.
Qed.

Lemma from_string_view_reads_the_numeric_prefix_witness :
  from_string_view int "12abc" 0 = ok 12
  /\ from_string_view long_long_int "-3.7" 0 = ok (-3).
Proof.
  split.
  - exact (from_string_view_reads_the_numeric_prefix int 12 "abc" 0
             eq_refl eq_refl).
  - exact (from_string_view_reads_the_numeric_prefix long_long_int (-3) ".7" 0
             eq_refl eq_refl).
Defined.

Lemma call_number_text (T : integral) (z result : Z) :
  ((0 <=? z) || is_signed T)%bool = true ->
  call (response_basic_number T) (ev_on_number (to_string z)) result
  = ok (if in_range T z then z else result).
Proof.
  intro Hs.
  assert (Hs' : z < 0 -> is_signed T = true).
  { intro Hz. apply orb_true_iff in Hs. destruct Hs as [H|H]; [|exact H].
    apply Z.leb_le in H. lia. }
  cbn [call response_basic_number on_number_impl].
  destruct (in_range T z) eqn:Hr.
  - exact (from_string_view_to_string T z result Hr).
  - exact (from_string_view_out_of_range T z result Hs' Hr).
Qed.

(** X2.  Driven over a run of number nodes, the number adapter ends
    with the last value that is in the range of [T]; a value out of
    range is passed over without an error, so that [result] is then the
    value of an earlier node, or the one the caller found at the start.
    (The bodies are the decimal texts of integers, negative ones for a
    signed [T] only.) *)
Theorem number_adapter_keeps_the_last_value_in_range
  (T : integral) (zs : list Z) (result : Z) :
  forallb (fun z => (0 <=? z) || is_signed T) zs = true ->
  drive (response_basic_number T)
        (List.map (fun z => ev_on_number (to_string z)) zs) result
  = ok (fold_left (fun acc z => if in_range T z then z else acc) zs result).
Proof.
  revert result.
  induction zs as [|z zs IH]; intros result H; [reflexivity|].
  cbn [forallb] in H. apply andb_true_iff in H. destruct H as [Hz Hzs].
  cbn [List.map drive fold_left].
  rewrite (call_number_text T z result Hz). cbn [bind].
  exact (IH _ Hzs).
Qed.

Lemma number_adapter_keeps_the_last_value_in_range_witness :
  drive response_number
        (List.map (fun z => ev_on_number (to_string z))
                  [7; general.too_large]) 0
  = ok 7.
Proof.
  exact (number_adapter_keeps_the_last_value_in_range
           long_long_int [7; general.too_large] 0 eq_refl).
Defined.

End NumericPrefix.

(** ** The adapter that ignores, and the adapters that keep one string *)

Section OneValue.

Import resp.

(** X3.  [response_ignore] overrides every member with an empty body:
    whatever calls the parser makes, in whatever order, none raises an
    exception.  [response_buffers_ignore::get] hands out this object
    for every id, so every reply is accepted there. *)
Theorem response_ignore_accepts_every_call
  (id : response_id) (evs : list event) :
  drive response_ignore evs tt = ok tt
  /\ drive (response_buffers_ignore_get id) evs tt = ok tt.
Proof.
  assert (H : drive response_ignore evs tt = ok tt).
  { induction evs as [|e evs IH]; [reflexivity|].
    cbn [drive]. destruct e; cbn; exact IH. }
  split; exact H.
Qed.

Lemma node_bodies_cons (e : event) (evs : list event) :
  node_bodies (e :: evs)
  = match node_body e with Some s => [s] | None => [] end ++ node_bodies evs.
Proof. reflexivity. Qed.

Lemma last_cons_default {A : Type} (l : list A) (x d d' : A) :
  List.last (x :: l) d = List.last (x :: l) d'.
Proof.
  revert x. induction l as [|y l IH]; intro x; [reflexivity|].
  change (List.last (y :: l) d = List.last (y :: l) d'). apply IH.
Qed.

(** A call that one of the string classes accepts stores its body. *)
Lemma string_class_call (ty : type) (r : response_base string) (e : event)
                        (st st' : string) :
  In (ty, r) string_classes ->
  call r e st = ok st' ->
  st' = match node_body e with Some s => s | None => st end.
Proof.
  intros Hin H. cbn in Hin.
  repeat (destruct Hin as [Hin|Hin];
          [injection Hin as <- <-; destruct e; cbn in H;
           try discriminate H; injection H as <-; reflexivity|]).
  contradiction.
Qed.

(** X4.  The seven classes that keep one string (simple string, simple
    error, double, big number, blob string, blob error, verbatim
    string) overwrite: after any run that ends normally [result] is the
    body of the last node of the run, or what it was when the run has
    no node.  Each accepts the node of its own type, and raises the
    exception of [response_base] on every other call but [pop()]. *)
Theorem string_adapter_keeps_the_last_body
  (ty : type) (r : response_base string) (evs : list event)
  (result result' : string) :
  In (ty, r) string_classes ->
  drive r evs result = ok result' ->
  result' = List.last (node_bodies evs) result
  /\ (forall s st, call r (scalar_event ty s) st = ok s)
  /\ (forall e st,
        (forall s, e <> scalar_event ty s) -> e <> ev_pop ->
        exists member, call r e st = throw (not_overridden member)).
Proof.
  intros Hin H. split; [|split].
  - revert result H.
    induction evs as [|e evs IH]; intros result H.
    + cbn in H. injection H as <-. reflexivity.
    + cbn [drive] in H.
      destruct (call r e result) as [st1|] eqn:E;
        [cbn [bind] in H | discriminate H].
      rewrite (IH _ H), node_bodies_cons.
      rewrite (string_class_call ty r e result st1 Hin E).
      destruct (node_body e) as [s|]; [|reflexivity].
      cbn [List.app].
      destruct (node_bodies evs) as [|b bs]; [reflexivity|].
      change (List.last (s :: b :: bs) result)
        with (List.last (b :: bs) result).
      apply last_cons_default.
  - intros s st. cbn in Hin.
    repeat (destruct Hin as [Hin|Hin]; [injection Hin as <- <-; reflexivity|]).
    contradiction.
  - intros e st Hne Hp. cbn in Hin.
    repeat (destruct Hin as [Hin|Hin];
            [injection Hin as <- <-; destruct e; cbn;
             try (eexists; reflexivity);
             try (exfalso; eapply Hne; reflexivity);
             congruence|]).
    contradiction.
Qed.

Lemma string_adapter_keeps_the_last_body_witness :
  "b" = List.last (node_bodies [ev_on_blob_error "a"; ev_pop;
                                ev_on_blob_error "b"]) "z"
  /\ (forall s st, call response_blob_error (scalar_event blob_error s) st
                   = ok s)
  /\ (forall e st,
        (forall s, e <> scalar_event blob_error s) -> e <> ev_pop ->
        exists member,
          call response_blob_error e st = throw (not_overridden member)).
Proof.
  exact (string_adapter_keeps_the_last_body
           blob_error response_blob_error
           [ev_on_blob_error "a"; ev_pop; ev_on_blob_error "b"] "z" "b"
           (or_intror (or_intror (or_intror (or_intror (or_intror
              (or_introl eq_refl))))))
           eq_refl).
Defined.

End OneValue.

(** ** The containers that append: [response_array] and [response_list] *)

Section Containers.

Import charconv resp.

(** A class whose overridden members convert the body of a node, if
    the call has one, and append the value, appends the values of a run
    in their order. *)
Lemma appends_run {A : Type} (r : response_base (list A)) (T : element A)
                  (ov : event -> bool) :
  (forall e st,
      ov e = true ->
      call r e st
      = match node_body e with
        | Some s => x <- convert T s (declared T (List.length st)) ;;
                    ok (st ++ [x])
        | None => ok st
        end) ->
  forall evs vs result,
    forallb ov evs = true ->
    converts_to T (node_bodies evs) vs ->
    drive r evs result = ok (result ++ vs).
Proof.
  intros Hr evs.
  induction evs as [|e evs IH]; intros vs result Hov Hvs.
  - cbn in Hvs. inversion Hvs. cbn. rewrite List.app_nil_r. reflexivity.
  - cbn [forallb] in Hov. apply andb_true_iff in Hov.
    destruct Hov as [He Hevs].
    cbn [drive]. rewrite (Hr e result He).
    rewrite node_bodies_cons in Hvs.
    destruct (node_body e) as [s|]; cbn [List.app] in Hvs.
    + inversion Hvs as [|s' v ss vs' Hv Hrest]; subst.
      rewrite Hv. cbn [bind]. rewrite (IH vs' _ Hevs Hrest).
      rewrite <- List.app_assoc. reflexivity.
    + cbn [bind]. exact (IH vs _ Hevs Hvs).
Qed.

Lemma response_array_call {A : Type} (T : element A) (e : event) (st : list A) :
  response_array.overrides e = true ->
  call (response_array.vtable T) e st
  = match node_body e with
    | Some s => x <- convert T s (declared T (List.length st)) ;;
                ok (st ++ [x])
    | None => ok st
    end.
Proof. intro H. destruct e; try discriminate H; reflexivity. Qed.

Lemma response_list_call {A : Type} (T : element A) (e : event) (st : list A) :
  response_list.overrides e = true ->
  call (response_list.vtable T) e st
  = match node_body e with
    | Some s => x <- convert T s (declared T (List.length st)) ;;
                ok (st ++ [x])
    | None => ok st
    end.
Proof. intro H. destruct e; try discriminate H; reflexivity. Qed.

Lemma converts_to_std_string (ss : list string) :
  converts_to std_string ss ss.
Proof. induction ss; constructor; [reflexivity | assumption]. Qed.

Lemma converts_to_integral (T : integral) (indeterminate : nat -> Z)
                           (zs : list Z) :
  forallb (in_range T) zs = true ->
  converts_to (integral_element T indeterminate) (List.map to_string zs) zs.
Proof.
  induction zs as [|z zs IH]; intro H; [constructor|].
  cbn [forallb] in H. apply andb_true_iff in H. destruct H as [Hz Hzs].
  constructor; [|exact (IH Hzs)].
  intro r. exact (from_string_view_to_string T z r Hz).
Qed.

(** A run with a call that the class does not override does not end
    normally. *)
Lemma refused_run {S : Type} (r : response_base S) (ov : event -> bool) :
  (forall e st, ov e = false -> is_ok (call r e st) = false) ->
  forall evs result,
    forallb ov evs = false -> is_ok (drive r evs result) = false.
Proof.
  intros Hr evs.
  induction evs as [|e evs IH]; intros result H; [discriminate H|].
  cbn [forallb] in H. cbn [drive].
  destruct (ov e) eqn:He.
  - destruct (call r e result) as [st1|]; [|reflexivity].
    cbn [bind]. exact (IH st1 H).
  - pose proof (Hr e result He) as Hc.
    destruct (call r e result); [discriminate Hc | reflexivity].
Qed.

(** X5.  [response_array<std::string>] flattens a reply: the headers of
    arrays, sets, maps and pushes, at any depth, leave [result] alone,
    and each scalar node (simple string, number, double, boolean, big
    number, verbatim string, blob string, streamed string part) appends
    its body.  Over calls of these kinds the run ends normally with the
    bodies, in order of arrival, appended to what [result] held: the
    result builds up over replies until the caller clears it.  For the
    map reply of test_map this is the list that the test expects. *)
Theorem response_array_flattens_the_reply
  (evs : list event) (result : list string) :
  forallb response_array.overrides evs = true ->
  drive (response_array.vtable std_string) evs result
  = ok (result ++ node_bodies evs).
Proof.
  intro H.
  exact (appends_run _ _ _ (response_array_call std_string)
           evs (node_bodies evs) result H (converts_to_std_string _)).
Qed.

Lemma response_array_flattens_the_reply_witness :
  drive (response_flat_map std_string) general.map_calls []
  = ok general.map_expected.
Proof.
  exact (response_array_flattens_the_reply general.map_calls [] eq_refl).
Defined.

End Containers.

(** ** Containers of integers, and what the containers refuse *)

Section ContainerElements.

Import charconv resp.

(** X6.  [response_array<T>] for an integral [T] converts each body
    with [from_string_view]: when the bodies of the nodes are the
    decimal texts of values of [T], the run ends normally with these
    values, in order, appended to [result].  The reply of test_array
    with the bodies 1, 2, 3 gives the integers 1, 2, 3. *)
Theorem response_array_converts_each_element
  (T : integral) (indeterminate : nat -> Z) (evs : list event)
  (zs result : list Z) :
  forallb response_array.overrides evs = true ->
  node_bodies evs = List.map to_string zs ->
  forallb (in_range T) zs = true ->
  drive (response_array.vtable (integral_element T indeterminate)) evs result
  = ok (result ++ zs).
Proof.
  intros Hov Hb Hr.
  apply (appends_run _ _ _ (response_array_call _) evs zs result Hov).
  rewrite Hb. exact (converts_to_integral T indeterminate zs Hr).
Qed.

Lemma response_array_converts_each_element_witness :
  drive (response_array.vtable (integral_element int (fun _ => 0)))
        general.array_int_calls []
  = ok [1; 2; 3].
Proof.
  exact (response_array_converts_each_element
           int (fun _ => 0) general.array_int_calls [1; 2; 3] []
           eq_refl eq_refl eq_refl).
Defined.

(** X7.  In a [response_array] of integers, a node whose body has no
    digit after the optional sign ends the run with the exception of
    [from_string_view], whatever was read before it and whatever would
    follow. *)
Theorem response_array_stops_at_a_body_without_digits
  (T : integral) (indeterminate : nat -> Z) (pre post : list event)
  (e : event) (s : string) (result st : list Z) :
  drive (response_array.vtable (integral_element T indeterminate)) pre result
    = ok st ->
  response_array.overrides e = true ->
  node_body e = Some s ->
  snd (digits (snd (strip_sign T s)) 0 0) = 0%nat ->
  drive (response_array.vtable (integral_element T indeterminate))
        (pre ++ e :: post) result
  = throw (runtime_error "from_chars: Unable to convert").
Proof.
  intros Hpre Hov Hb Hd.
  rewrite drive_app, Hpre. cbn [bind drive].
  rewrite (response_array_call (integral_element T indeterminate) e st Hov), Hb.
  cbn [convert declared integral_element].
  assert (E : from_string_view T s (indeterminate (List.length st))
              = throw (runtime_error "from_chars: Unable to convert")).
  { apply from_string_view_throws_iff. apply from_chars_invalid_iff. exact Hd. }
  rewrite E. reflexivity.
Qed.

Lemma response_array_stops_at_a_body_without_digits_witness :
  drive (response_array.vtable (integral_element int (fun _ => 0)))
        ([ev_select_array 3; ev_on_blob_string "1"]
         ++ ev_on_blob_string "two" :: [ev_on_blob_string "3"; ev_pop]) []
  = throw (runtime_error "from_chars: Unable to convert").
Proof.
  exact (response_array_stops_at_a_body_without_digits
           int (fun _ => 0) [ev_select_array 3; ev_on_blob_string "1"]
           [ev_on_blob_string "3"; ev_pop] (ev_on_blob_string "two") "two"
           [] [1] eq_refl eq_refl eq_refl eq_refl).
Defined.

(** X8.  In a [response_array] of integers, a node whose body is the
    text of an integer outside the range of [T] raises nothing and
    still appends an element: [from_chars] leaves [r] alone, so the
    element is the value that the declaration [T r;] left there, not
    the number of the reply. *)
Theorem response_array_appends_an_element_out_of_range
  (T : integral) (indeterminate : nat -> Z) (e : event) (z : Z)
  (result : list Z) :
  response_array.overrides e = true ->
  node_body e = Some (to_string z) ->
  ((0 <=? z) || is_signed T)%bool = true ->
  in_range T z = false ->
  call (response_array.vtable (integral_element T indeterminate)) e result
  = ok (result ++ [indeterminate (List.length result)]).
Proof.
  intros Hov Hb Hs Hr.
  assert (Hs' : z < 0 -> is_signed T = true).
  { intro Hz. apply orb_true_iff in Hs. destruct Hs as [H|H]; [|exact H].
    apply Z.leb_le in H. lia. }
  rewrite (response_array_call (integral_element T indeterminate) e result Hov).
  rewrite Hb. cbn [convert declared integral_element].
  rewrite (from_string_view_out_of_range T z _ Hs' Hr). reflexivity.
Qed.

Lemma response_array_appends_an_element_out_of_range_witness :
  call (response_array.vtable (integral_element int (fun _ => 0)))
       (ev_on_number (to_string (2 ^ 31))) [5]
  = ok [5; 0].
Proof.
  exact (response_array_appends_an_element_out_of_range
           int (fun _ => 0) (ev_on_number (to_string (2 ^ 31))) (2 ^ 31) [5]
           eq_refl eq_refl eq_refl eq_refl).
Defined.

(** X9.  [response_list<T>] overrides [select_array_impl] and
    [on_blob_string_impl] only: over array headers, blob strings and
    [pop()] the run ends normally with the converted bodies, in order,
    appended to [result]. *)
Theorem response_list_collects_the_blob_strings
  {A : Type} (T : element A) (evs : list event) (vs result : list A) :
  forallb response_list.overrides evs = true ->
  converts_to T (node_bodies evs) vs ->
  drive (response_list.vtable T) evs result = ok (result ++ vs).
Proof.
  intros Hov Hvs.
  exact (appends_run _ _ _ (response_list_call T) evs vs result Hov Hvs).
Qed.

Lemma response_list_collects_the_blob_strings_witness :
  drive (response_list.vtable (integral_element int (fun _ => 0)))
        general.array_int_calls [0]
  = ok [0; 1; 2; 3].
Proof.
  exact (response_list_collects_the_blob_strings
           (integral_element int (fun _ => 0)) general.array_int_calls
           [1; 2; 3] [0] eq_refl
           (converts_to_integral int (fun _ => 0) [1; 2; 3] eq_refl)).
Defined.

(** X10.  A container class ends no run normally that has a call it
    does not override.  [response_array] refuses a null, a simple
    error, a blob error and the header of an attribute (an array with a
    null element, as MGET answers, cannot be read into it);
    [response_list] accepts array headers and blob strings only;
    [response_set] refuses the header of an array and every scalar that
    is not a simple or a blob string; [response_unordered_set] accepts
    the headers of arrays and sets and blob strings only. *)
Theorem containers_refuse_what_they_do_not_override
  {A : Type} (T : element A) (Compare : A -> A -> bool)
  (evs : list event) (result : list A) :
  (forallb response_array.overrides evs = false ->
   is_ok (drive (response_array.vtable T) evs result) = false)
  /\ (forallb response_list.overrides evs = false ->
      is_ok (drive (response_list.vtable T) evs result) = false)
  /\ (forallb response_set.overrides evs = false ->
      is_ok (drive (response_set.vtable T Compare) evs result) = false)
  /\ (forallb response_unordered_set.overrides evs = false ->
      is_ok (drive (response_unordered_set.vtable T Compare) evs result)
         = false).
Proof.
  repeat split; apply refused_run; intros e st H;
    destruct e; try discriminate H; reflexivity.
Qed.

Lemma containers_refuse_what_they_do_not_override_witness :
  is_ok (drive (response_array.vtable std_string)
               general.array_with_null_calls []) = false
  /\ is_ok (drive (response_set.vtable std_string std_set.less_string)
                  general.array_int_calls []) = false.
Proof.
  split.
  - exact (proj1 (containers_refuse_what_they_do_not_override
             std_string std_set.less_string
             general.array_with_null_calls []) eq_refl).
  - exact (proj1 (proj2 (proj2 (containers_refuse_what_they_do_not_override
             std_string std_set.less_string
             general.array_int_calls []))) eq_refl).
Defined.

End ContainerElements.

(** ** The containers that insert: [response_set] and
    [response_unordered_set] *)

Section StringOrder.

Import resp.

Lemma ascii_compare_refl (a : ascii) : Ascii.compare a a = Eq.
Proof. unfold Ascii.compare. apply N.compare_refl. Qed.

Lemma ascii_compare_trans (a b c : ascii) :
  Ascii.compare a b = Lt -> Ascii.compare b c = Lt -> Ascii.compare a c = Lt.
Proof.
  unfold Ascii.compare. rewrite !N.compare_lt_iff. apply N.lt_trans.
Qed.

Lemma string_compare_trans (a : string) :
  forall b c, String.compare a b = Lt -> String.compare b c = Lt ->
              String.compare a c = Lt.
Proof.
  induction a as [|x a IH]; intros [|y b] [|z c]; cbn [String.compare];
    try discriminate; try reflexivity.
  destruct (Ascii.compare x y) eqn:Exy; try discriminate;
    destruct (Ascii.compare y z) eqn:Eyz; try discriminate; intros H1 H2.
  - apply Ascii.compare_eq_iff in Exy, Eyz. subst.
    rewrite ascii_compare_refl. exact (IH b c H1 H2).
  - apply Ascii.compare_eq_iff in Exy. subst. rewrite Eyz. reflexivity.
  - apply Ascii.compare_eq_iff in Eyz. subst. rewrite Exy. reflexivity.
  - rewrite (ascii_compare_trans x y z Exy Eyz). reflexivity.
Qed.

(** [std::less] on strings is a strict total order. *)
Lemma less_string_irreflexive (a : string) : std_set.less_string a a = false.
Proof.
  unfold std_set.less_string, String.ltb.
  pose proof (String.compare_antisym a a) as H.
  destruct (String.compare a a); try reflexivity; discriminate H.
Qed.

Lemma less_string_transitive (a b c : string) :
  std_set.less_string a b = true -> std_set.less_string b c = true ->
  std_set.less_string a c = true.
Proof.
  unfold std_set.less_string, String.ltb.
  destruct (String.compare a b) eqn:E1; try discriminate.
  destruct (String.compare b c) eqn:E2; try discriminate.
  rewrite (string_compare_trans a b c E1 E2). reflexivity.
Qed.

Lemma less_string_total (a b : string) :
  std_set.less_string a b = false -> std_set.less_string b a = false -> a = b.
Proof.
  unfold std_set.less_string, String.ltb.
  rewrite (String.compare_antisym b a).
  destruct (String.compare a b) eqn:E; cbn; try discriminate.
  intros _ _. exact (String.compare_eq_iff a b E).
Qed.

(** So is [std::less] on integers. *)
Lemma less_integral_irreflexive (a : Z) : std_set.less_integral a a = false.
Proof. apply Z.ltb_irrefl. Qed.

Lemma less_integral_transitive (a b c : Z) :
  std_set.less_integral a b = true -> std_set.less_integral b c = true ->
  std_set.less_integral a c = true.
Proof.
  unfold std_set.less_integral. rewrite !Z.ltb_lt. apply Z.lt_trans.
Qed.

Lemma less_integral_total (a b : Z) :
  std_set.less_integral a b = false -> std_set.less_integral b a = false ->
  a = b.
Proof. unfold std_set.less_integral. rewrite !Z.ltb_ge. lia. Qed.

End StringOrder.

Section Insertion.

Import resp.

Context {A : Type} (Compare : A -> A -> bool).

Hypothesis Compare_irreflexive : forall a, Compare a a = false.
Hypothesis Compare_transitive :
  forall a b c, Compare a b = true -> Compare b c = true -> Compare a c = true.
Hypothesis Compare_total :
  forall a b, Compare a b = false -> Compare b a = false -> a = b.

Lemma insert_In (v : A) (l : list A) (x : A) :
  In x (std_set.insert Compare v l) <-> x = v \/ In x l.
Proof.
  induction l as [|y l IH]; cbn [std_set.insert].
  - cbn. intuition.
  - destruct (Compare v y) eqn:E1.
    + cbn. intuition.
    + destruct (Compare y v) eqn:E2.
      * cbn [In]. rewrite IH. intuition.
      * rewrite (Compare_total v y E1 E2). cbn. intuition.
Qed.

Lemma insert_ordered (v : A) (l : list A) :
  std_set.ordered Compare l ->
  std_set.ordered Compare (std_set.insert Compare v l).
Proof.
  induction l as [|y l IH]; cbn [std_set.insert std_set.ordered].
  - intros _. split; [constructor | exact I].
  - intros [Hy Hl].
    destruct (Compare v y) eqn:E1.
    + cbn [std_set.ordered]. split; [|split; assumption].
      constructor; [exact E1|].
      apply List.Forall_forall. intros z Hz.
      rewrite List.Forall_forall in Hy.
      exact (Compare_transitive v y z E1 (Hy z Hz)).
    + destruct (Compare y v) eqn:E2.
      * cbn [std_set.ordered]. split; [|exact (IH Hl)].
        apply List.Forall_forall. intros z Hz.
        apply insert_In in Hz. destruct Hz as [->|Hz]; [exact E2|].
        rewrite List.Forall_forall in Hy. exact (Hy z Hz).
      * cbn [std_set.ordered]. split; assumption.
Qed.

Lemma ordered_NoDup (l : list A) : std_set.ordered Compare l -> NoDup l.
Proof.
  induction l as [|y l IH]; cbn [std_set.ordered]; [constructor|].
  intros [Hy Hl]. constructor; [|exact (IH Hl)].
  intro Hin. rewrite List.Forall_forall in Hy.
  pose proof (Hy y Hin) as H. rewrite Compare_irreflexive in H.
  discriminate H.
Qed.

(** A class whose overridden members convert the body of a node, if
    the call has one, and insert the value, keeps [result] a set and
    ends with the old members and the values of the run. *)
Lemma inserts_run (r : response_base (list A)) (Key : element A)
                  (ov : event -> bool) :
  (forall e st,
      ov e = true ->
      call r e st
      = match node_body e with
        | Some s => x <- convert Key s (declared Key (List.length st)) ;;
                    ok (std_set.insert Compare x st)
        | None => ok st
        end) ->
  forall evs vs result,
    forallb ov evs = true ->
    converts_to Key (node_bodies evs) vs ->
    std_set.ordered Compare result ->
    exists result',
      drive r evs result = ok result'
      /\ std_set.ordered Compare result'
      /\ NoDup result'
      /\ (forall x, In x result' <-> In x result \/ In x vs).
Proof.
  intros Hr evs.
  induction evs as [|e evs IH]; intros vs result Hov Hvs Hord.
  - cbn in Hvs. inversion Hvs. exists result. cbn.
    split; [reflexivity|]. split; [exact Hord|].
    split; [exact (ordered_NoDup _ Hord)|]. intuition.
  - cbn [forallb] in Hov. apply andb_true_iff in Hov.
    destruct Hov as [He Hevs].
    cbn [drive]. rewrite (Hr e result He).
    rewrite node_bodies_cons in Hvs.
    destruct (node_body e) as [s|]; cbn [List.app] in Hvs.
    + inversion Hvs as [|s' v ss vs' Hv Hrest]; subst.
      rewrite Hv. cbn [bind].
      destruct (IH vs' (std_set.insert Compare v result) Hevs Hrest
                   (insert_ordered v result Hord))
        as (result' & Hd & Ho & Hn & Hin).
      exists result'. split; [exact Hd|]. split; [exact Ho|].
      split; [exact Hn|].
      intro x. rewrite Hin, insert_In. cbn [In]. intuition.
    + cbn [bind]. exact (IH vs result Hevs Hvs Hord).
Qed.

End Insertion.

Section SetAdapters.

Import charconv resp.

(** X11.  [response_set<Key, Compare>], for a [Compare] that is a strict
    total order (as [std::less] is on strings and on integers): over
    set headers, simple strings, blob strings and [pop()], with bodies
    that convert to the values [vs], the run ends normally; [result] is
    still in the order of [Compare] and free of duplicates, and its
    members are the members it had and the values [vs], whatever their
    order of arrival and however often one is repeated.  The reply of
    test_set2 is read into such a set. *)
Theorem response_set_holds_the_members
  {A : Type} (Key : element A) (Compare : A -> A -> bool)
  (evs : list event) (vs result : list A) :
  (forall a, Compare a a = false) ->
  (forall a b c,
      Compare a b = true -> Compare b c = true -> Compare a c = true) ->
  (forall a b, Compare a b = false -> Compare b a = false -> a = b) ->
  forallb response_set.overrides evs = true ->
  converts_to Key (node_bodies evs) vs ->
  std_set.ordered Compare result ->
  exists result',
    drive (response_set.vtable Key Compare) evs result = ok result'
    /\ std_set.ordered Compare result'
    /\ NoDup result'
    /\ (forall x, In x result' <-> In x result \/ In x vs).
Proof.
  intros Hi Ht Htot.
  apply (inserts_run Compare Hi Ht Htot).
  intros e st H. destruct e; try discriminate H; reflexivity.
Qed.

Lemma response_set_holds_the_members_witness :
  exists result',
    drive (response_set.vtable std_string std_set.less_string)
          general.set_calls [] = ok result'
    /\ std_set.ordered std_set.less_string result'
    /\ NoDup result'
    /\ (forall x, In x result'
                  <-> In x [] \/ In x ["orange"; "apple"; "one"; "two"; "three"]).
Proof.
  exact (response_set_holds_the_members
           std_string std_set.less_string general.set_calls
           ["orange"; "apple"; "one"; "two"; "three"] []
           less_string_irreflexive less_string_transitive less_string_total
           eq_refl (converts_to_std_string _) I).
Defined.

(** X12.  [response_unordered_set<Key, Compare>] keeps a [std::set] as
    well: over the headers of arrays and sets, blob strings and
    [pop()], with bodies that convert to the values [vs], the run ends
    normally with [result] in the order of [Compare], free of
    duplicates, and holding the members it had and the values [vs]. *)
Theorem response_unordered_set_holds_the_members
  {A : Type} (Key : element A) (Compare : A -> A -> bool)
  (evs : list event) (vs result : list A) :
  (forall a, Compare a a = false) ->
  (forall a b c,
      Compare a b = true -> Compare b c = true -> Compare a c = true) ->
  (forall a b, Compare a b = false -> Compare b a = false -> a = b) ->
  forallb response_unordered_set.overrides evs = true ->
  converts_to Key (node_bodies evs) vs ->
  std_set.ordered Compare result ->
  exists result',
    drive (response_unordered_set.vtable Key Compare) evs result = ok result'
    /\ std_set.ordered Compare result'
    /\ NoDup result'
    /\ (forall x, In x result' <-> In x result \/ In x vs).
Proof.
  intros Hi Ht Htot.
  apply (inserts_run Compare Hi Ht Htot).
  intros e st H. destruct e; try discriminate H; reflexivity.
Qed.

Lemma response_unordered_set_holds_the_members_witness :
  exists result',
    drive (response_unordered_set.vtable
             (integral_element long_long_int (fun _ => 0))
             std_set.less_integral)
          [ ev_select_array 4; ev_on_blob_string "3"; ev_on_blob_string "1";
            ev_on_blob_string "3"; ev_on_blob_string "2"; ev_pop ] [2]
      = ok result'
    /\ std_set.ordered std_set.less_integral result'
    /\ NoDup result'
    /\ (forall x, In x result' <-> In x [2] \/ In x [3; 1; 3; 2]).
Proof.
  exact (response_unordered_set_holds_the_members
           (integral_element long_long_int (fun _ => 0))
           std_set.less_integral
           [ ev_select_array 4; ev_on_blob_string "3"; ev_on_blob_string "1";
             ev_on_blob_string "3"; ev_on_blob_string "2"; ev_pop ]
           [3; 1; 3; 2] [2]
           less_integral_irreflexive less_integral_transitive
           less_integral_total eq_refl
           (converts_to_integral long_long_int (fun _ => 0) [3; 1; 3; 2]
              eq_refl)
           (conj (Forall_nil _) I)).
Defined.

End SetAdapters.

(** ** The buffers and their dispatch *)

Section Buffers.

Import resp.

(** X13.  [response_buffers::get] answers the tree adapter for every id
    whose command is EXEC, whatever type the id carries.  A reply to
    EXEC that is a scalar or a null (the null that ends a transaction
    whose WATCH failed, an error) therefore reaches [add] of the tree
    adapter, where on a cleared adapter the assertion fails. *)
Theorem exec_reply_goes_to_the_tree (ty : type) (e : event) (s : string) :
  node_body e = Some s ->
  response_buffers.get {| cmd := command.exec; id_t := ty |}
    = response_buffers.tree_
  /\ call (response_buffers.object
             (response_buffers.get {| cmd := command.exec; id_t := ty |}))
          e response_tree.clear
     = throw (assertion_failure "!std::empty(result)").
Proof.
  intro H. split; [reflexivity|].
  destruct e; try discriminate H; reflexivity.
Qed.

Lemma exec_reply_goes_to_the_tree_witness :
  response_buffers.get {| cmd := command.exec; id_t := null |}
    = response_buffers.tree_
  /\ call (response_buffers.object
             (response_buffers.get {| cmd := command.exec; id_t := null |}))
          ev_on_null response_tree.clear
     = throw (assertion_failure "!std::empty(result)").
Proof.
  exact (exec_reply_goes_to_the_tree null ev_on_null "" eq_refl).
Defined.

End Buffers.

Section BuffersByType.

Import resp.

(** X14.  For a command other than EXEC, [response_buffers::get] picks
    the member by the type of the reply, and the member accepts the
    first call of a reply of that type: the header of an array, push,
    set or map, the string scalars, a streamed string part and a null
    (which goes to the ignoring member).  Numbers and booleans go to
    their adapters, which check the body; attributes are the
    exception, see the next property. *)
Theorem buffers_accept_the_reply_of_their_type
  (c : command.t) (ty : type) (n : Z) (s : string)
  (st : response_buffers.state_of
          (response_buffers.get {| cmd := c; id_t := ty |})) :
  c <> command.exec ->
  ty <> attribute -> ty <> number -> ty <> boolean ->
  is_ok (call (response_buffers.object
                 (response_buffers.get {| cmd := c; id_t := ty |}))
              (first_call_of ty n s) st) = true.
Proof.
  intros Hc Ha Hn Hb.
  destruct c; try (exfalso; apply Hc; reflexivity);
    destruct ty; try (exfalso; congruence); reflexivity.
Qed.

Lemma buffers_accept_the_reply_of_their_type_witness :
  is_ok (call (response_buffers.object
                 (response_buffers.get
                    {| cmd := command.hgetall; id_t := map |}))
              (first_call_of map 2 "") ["old"]) = true.
Proof.
  apply (buffers_accept_the_reply_of_their_type
           command.hgetall map 2 "" ["old"]); discriminate.
Defined.

(** X15.  A reply of type attribute to a command other than EXEC is
    handed to the member [attribute_], a [response_array], which does
    not override [select_attribute_impl]: the header of the reply
    raises the exception of [response_base], and [attribute()] is never
    filled. *)
Theorem buffers_refuse_an_attribute_reply
  (c : command.t) (n : Z)
  (st : response_buffers.state_of
          (response_buffers.get {| cmd := c; id_t := attribute |})) :
  c <> command.exec ->
  call (response_buffers.object
          (response_buffers.get {| cmd := c; id_t := attribute |}))
       (first_call_of attribute n "") st
  = throw (not_overridden "select_attribute_impl").
Proof.
  intro Hc. destruct c; try (exfalso; apply Hc; reflexivity); reflexivity.
Qed.

Lemma buffers_refuse_an_attribute_reply_witness :
  call (response_buffers.object
          (response_buffers.get {| cmd := command.hello; id_t := attribute |}))
       (ev_select_attribute 1) []
  = throw (not_overridden "select_attribute_impl").
Proof.
  apply (buffers_refuse_an_attribute_reply command.hello 1 []); discriminate.
Defined.

End BuffersByType.

(** ** Runs of the tree adapter *)

Section TreeRuns.

Import resp resp.response_tree.

(** The first call of a run that ends normally: [E] names its outcome
    [st1], and [H] becomes the rest of the run. *)
Ltac run_first H st1 E :=
  cbn [drive] in H;
  match type of H with
  | (_ <- ?c ;; _) = ok _ =>
      destruct c as [st1|] eqn:E; [cbn [bind] in H | discriminate H]
  end.

(** What one call does to [result]: nothing, a new last element without
    value, a new last element with the body for value, or one more
    value in the last element. *)
Lemma call_result (e : event) (st st' : state) :
  call vtable e st = ok st' ->
  (node_body e = None /\ result st' = result st)
  \/ (exists n ty, node_body e = None /\
        result st' = result st ++ [ {| depth := depth_ st; t := ty;
                                       expected_size := n; value := [] |} ])
  \/ (exists s ty, node_body e = Some s /\
        result st' = result st ++ [ {| depth := depth_ st; t := ty;
                                       expected_size := 1; value := [s] |} ]
        /\ exists init back, result st = init ++ [back]
             /\ Z.of_nat (List.length (value back)) = expected_size back)
  \/ (exists s init back, node_body e = Some s /\
        result st = init ++ [back] /\
        Z.of_nat (List.length (value back)) <> expected_size back /\
        result st' = init ++ [ {| depth := depth back; t := t back;
                                  expected_size := expected_size back;
                                  value := value back ++ [s] |} ]).
Proof.
  intro H.
  assert (Hadd : forall s ty, add s ty st = ok st' ->
    (exists ty, result st' = result st ++ [ {| depth := depth_ st; t := ty;
                                       expected_size := 1; value := [s] |} ]
        /\ exists init back, result st = init ++ [back]
             /\ Z.of_nat (List.length (value back)) = expected_size back)
    \/ (exists init back, result st = init ++ [back] /\
        Z.of_nat (List.length (value back)) <> expected_size back /\
        result st' = init ++ [ {| depth := depth back; t := t back;
                                  expected_size := expected_size back;
                                  value := value back ++ [s] |} ])).
  { intros s ty Ha. unfold add in Ha.
    destruct (unsnoc (result st)) as [[init back]|] eqn:U; [|discriminate Ha].
    apply unsnoc_Some in U.
    destruct (Z.eqb_spec (Z.of_nat (List.length (value back)))
                         (expected_size back))
      as [E|E]; injection Ha as <-; cbn [result].
    - left. exists ty. split; [reflexivity|].
      exists init, back. split; assumption.
    - right. exists init, back. repeat split; assumption. }
  assert (Hagg : forall n ty, add_aggregate n ty st = ok st' ->
    result st' = result st
    \/ result st' = result st ++ [ {| depth := depth_ st; t := ty;
                                       expected_size := n; value := [] |} ]).
  { intros n ty Ha. apply add_aggregate_ok in Ha. destruct Ha as [_ ->].
    cbn [result]. destruct (depth_ st =? 0); [left | right]; reflexivity. }
  destruct e; cbn [call vtable select_attribute_impl select_push_impl
    select_array_impl select_set_impl select_map_impl on_simple_error_impl
    on_blob_error_impl on_null_impl on_simple_string_impl on_number_impl
    on_double_impl on_bool_impl on_big_number_impl on_verbatim_string_impl
    on_blob_string_impl on_streamed_string_part_impl pop] in H;
    try (destruct (Hagg _ _ H) as [R|R];
         [left; split; [reflexivity | exact R]
         | right; left; eexists _, _; split; [reflexivity | exact R]]);
    try (destruct (Hadd _ _ H) as [(ty & R & F)|(init & back & R1 & R2 & R3)];
         [right; right; left; eexists _, ty; split; [reflexivity|];
          split; assumption
         | right; right; right; eexists _, init, back; split; [reflexivity|];
           repeat split; assumption]).
  injection H as <-. left. split; reflexivity.
Qed.

Lemma flat_map_value_snoc (l : list elem) (x : elem) :
  List.flat_map value (l ++ [x]) = List.flat_map value l ++ value x.
Proof.
  rewrite List.flat_map_app. cbn. rewrite List.app_nil_r. reflexivity.
Qed.

(** X16.  The tree adapter loses no scalar and keeps their order: after
    any run that ends normally, the values of the recorded elements,
    read element after element, are the values held before the run
    followed by the bodies of the scalar nodes of the run in order of
    arrival (the empty string for a null).  Headers add no value. *)
Theorem tree_holds_every_body_in_order (evs : list event) (st st' : state) :
  drive vtable evs st = ok st' ->
  List.flat_map value (result st')
  = List.flat_map value (result st) ++ node_bodies evs.
Proof.
  revert st.
  induction evs as [|e evs IH]; intros st H.
  - cbn in H. injection H as <-. cbn. rewrite List.app_nil_r. reflexivity.
  - run_first H st1 E. rewrite (IH _ H), node_bodies_cons.
    destruct (call_result e st st1 E)
      as [(B & R) | [(n & ty & B & R) | [(s & ty & B & R & _)
         | (s & init & back & B & R1 & _ & R2)]]]; rewrite B.
    + rewrite R. reflexivity.
    + rewrite R, flat_map_value_snoc. cbn. rewrite List.app_nil_r.
      reflexivity.
    + rewrite R, flat_map_value_snoc. cbn [value].
      rewrite <- List.app_assoc. reflexivity.
    + rewrite R2, R1, !flat_map_value_snoc. cbn [value].
      rewrite <- !List.app_assoc. reflexivity.
Qed.

Lemma tree_holds_every_body_in_order_witness :
  List.flat_map value
    [ {| depth := 1; t := array; expected_size := 1; value := [] |};
      {| depth := 2; t := array; expected_size := 1; value := ["x"] |} ]
  = List.flat_map value (result clear) ++ node_bodies general.nested_calls.
Proof.
  exact (tree_holds_every_body_in_order general.nested_calls clear
           {| result := [ {| depth := 1; t := array; expected_size := 1;
                             value := [] |};
                          {| depth := 2; t := array; expected_size := 1;
                             value := ["x"] |} ];
              depth_ := 0 |}
           eq_refl).
Defined.

(** X17.  No element of the tree adapter ever holds more values than
    its header announced: if that is so for every element before a
    run (as on a cleared adapter), it is so after every run that ends
    normally.  An element whose announced size is negative is not
    bounded; none of the others outgrows its size. *)
Theorem tree_values_stay_within_the_expected_size
  (evs : list event) (st st' : state) :
  forallb within_expected (result st) = true ->
  drive vtable evs st = ok st' ->
  forallb within_expected (result st') = true.
Proof.
  revert st.
  induction evs as [|e evs IH]; intros st Hw H.
  - cbn in H. injection H as <-. exact Hw.
  - run_first H st1 E. apply (IH st1); [|exact H].
    destruct (call_result e st st1 E)
      as [(_ & R) | [(n & ty & _ & R) | [(s & ty & _ & R & _)
         | (s & init & back & _ & R1 & N & R2)]]].
    + rewrite R. exact Hw.
    + rewrite R, List.forallb_app, Hw. cbn.
      unfold within_expected. cbn.
      destruct (Z.ltb_spec n 0); destruct (Z.leb_spec 0 n); cbn;
        try reflexivity; lia.
    + rewrite R, List.forallb_app, Hw. reflexivity.
    + rewrite R2. rewrite R1 in Hw. rewrite List.forallb_app in Hw |- *.
      apply andb_true_iff in Hw. destruct Hw as [Hi Hb]. rewrite Hi.
      cbn in Hb |- *. rewrite andb_true_r in Hb |- *.
      unfold within_expected in Hb |- *. cbn [expected_size value].
      apply orb_true_iff in Hb. apply orb_true_iff.
      destruct Hb as [Hb|Hb]; [left; exact Hb|right].
      apply Z.leb_le in Hb. apply Z.leb_le.
      rewrite List.length_app. cbn [List.length]. lia.
Qed.

Lemma tree_values_stay_within_the_expected_size_witness :
  forallb within_expected
    [ {| depth := 1; t := array; expected_size := 1; value := [] |};
      {| depth := 2; t := array; expected_size := 1; value := ["x"] |} ]
  = true.
Proof.
  exact (tree_values_stay_within_the_expected_size general.nested_calls clear
           {| result := [ {| depth := 1; t := array; expected_size := 1;
                             value := [] |};
                          {| depth := 2; t := array; expected_size := 1;
                             value := ["x"] |} ];
              depth_ := 0 |}
           eq_refl eq_refl).
Defined.

(** X18.  After any run of the tree adapter that ends normally, the
    depth counter is its value before the run, plus the headers of the
    run, minus its calls of [pop()]; over the calls of complete replies
    it is back where it was, and nothing keeps it from going below zero
    when [pop()] is called more often than a header arrived.  [size()]
    never goes down in a run: only [clear()] removes elements. *)
Theorem tree_depth_follows_the_headers (evs : list event) (st st' : state) :
  drive vtable evs st = ok st' ->
  depth_ st' = depth_ st + unclosed evs
  /\ (size st <= size st')%nat.
Proof.
  intro H. split; [exact (tree_depth_counter evs st st' H)|].
  revert st H. unfold size.
  induction evs as [|e evs IH]; intros st H.
  - cbn in H. injection H as <-. lia.
  - run_first H st1 E. specialize (IH st1 H).
    destruct (call_result e st st1 E)
      as [(_ & R) | [(n & ty & _ & R) | [(s & ty & _ & R & _)
         | (s & init & back & _ & R1 & N & R2)]]].
    + rewrite R in IH. exact IH.
    + rewrite R, List.length_app in IH. cbn in IH. lia.
    + rewrite R, List.length_app in IH. cbn in IH. lia.
    + rewrite R2 in IH. rewrite R1. rewrite List.length_app in IH |- *.
      cbn in IH |- *. lia.
Qed.

Lemma tree_depth_follows_the_headers_witness :
  -1 = 0 + unclosed [ev_select_array 1; ev_pop; ev_pop]
  /\ (size clear <= 0)%nat.
Proof.
  exact (tree_depth_follows_the_headers
           [ev_select_array 1; ev_pop; ev_pop] clear
           {| result := []; depth_ := -1 |} eq_refl).
Defined.

(** X19.  A run of the tree adapter only adds at the end of [result]:
    the elements before the last one are as they were, at their
    places; the last element keeps its depth, type and expected size,
    and its value can only have grown; whatever else the run recorded
    follows it. *)
Theorem tree_only_grows_at_the_end
  (evs : list event) (st st' : state) (init : list elem) (back : elem) :
  result st = init ++ [back] ->
  drive vtable evs st = ok st' ->
  exists grown more,
    result st' = init ++ {| depth := depth back; t := t back;
                            expected_size := expected_size back;
                            value := value back ++ grown |} :: more.
Proof.
  revert st init back.
  induction evs as [|e evs IH]; intros st init back R H.
  - cbn in H. injection H as <-. exists [], []. rewrite R, List.app_nil_r.
    destruct back; reflexivity.
  - run_first H st1 E.
    assert (Hnew : forall new, result st1 = result st ++ [new] ->
      exists grown more,
        result st' = init ++ {| depth := depth back; t := t back;
                                expected_size := expected_size back;
                                value := value back ++ grown |} :: more).
    { intros new R1. rewrite R in R1.
      destruct (IH st1 (init ++ [back]) new R1 H) as (grown & more & R').
      exists [], ({| depth := depth new; t := t new;
                    expected_size := expected_size new;
                    value := value new ++ grown |} :: more).
      rewrite R', <- List.app_assoc, List.app_nil_r.
      destruct back; reflexivity. }
    destruct (call_result e st st1 E)
      as [(_ & R1) | [(n & ty & _ & R1) | [(s & ty & _ & R1 & _)
         | (s & init' & back' & _ & R1 & _ & R2)]]].
    + rewrite R in R1. exact (IH st1 init back R1 H).
    + exact (Hnew _ R1).
    + exact (Hnew _ R1).
    + rewrite R in R1. apply List.app_inj_tail in R1.
      destruct R1 as [<- <-].
      destruct (IH st1 init _ R2 H) as (grown & more & R').
      exists (s :: grown), more. rewrite R'.
      cbn [depth t expected_size value].
      rewrite <- List.app_assoc. reflexivity.
Qed.

Lemma tree_only_grows_at_the_end_witness :
  exists grown more,
    [ {| depth := 1; t := array; expected_size := 2; value := ["a"; "b"] |};
      {| depth := 1; t := blob_string; expected_size := 1; value := ["c"] |} ]
    = [] ++ {| depth := 1; t := array; expected_size := 2;
               value := ["a"] ++ grown |} :: more.
Proof.
  exact (tree_only_grows_at_the_end
           [ev_on_blob_string "b"; ev_on_blob_string "c"]
           {| result := [ {| depth := 1; t := array; expected_size := 2;
                             value := ["a"] |} ];
              depth_ := 1 |}
           {| result := [ {| depth := 1; t := array; expected_size := 2;
                             value := ["a"; "b"] |};
                          {| depth := 1; t := blob_string; expected_size := 1;
                             value := ["c"] |} ];
              depth_ := 1 |}
           [] {| depth := 1; t := array; expected_size := 2; value := ["a"] |}
           eq_refl eq_refl).
Defined.

Lemma call_scalar_recorded (ty : type) (s : string) (st : state) :
  call vtable (scalar_event ty s) st = add s (recorded_type ty) st.
Proof. destruct ty; reflexivity. Qed.

(** X20.  When the last element of the tree adapter holds as many
    values as it expects, the scalars that follow are recorded one
    element each, with the depth counter for depth, their own type and
    the expected size 1.  So on an adapter that still holds the
    elements of an earlier reply, the scalar children of a root are
    recorded one by one at depth 1, which a cleared adapter does not
    do. *)
Theorem tree_records_scalars_after_a_full_element
  (ss : list (type * string)) (st : state) (init : list elem) (back : elem) :
  result st = init ++ [back] ->
  Z.of_nat (List.length (value back)) = expected_size back ->
  drive vtable (List.map (fun ts => scalar_event (fst ts) (snd ts)) ss) st
  = ok {| result := result st ++
                    List.map (fun ts => {| depth := depth_ st;
                                           t := recorded_type (fst ts);
                                           expected_size := 1;
                                           value := [snd ts] |}) ss;
          depth_ := depth_ st |}.
Proof.
  revert st init back.
  induction ss as [|[ty s] ss IH]; intros st init back R F.
  - cbn. rewrite List.app_nil_r. destruct st; reflexivity.
  - cbn [List.map fst snd drive]. rewrite call_scalar_recorded.
    unfold add. rewrite R, unsnoc_app.
    destruct (Z.eqb_spec (Z.of_nat (List.length (value back)))
                         (expected_size back))
      as [_|N]; [|contradiction].
    cbn [bind].
    erewrite (IH _ (init ++ [back])); [|reflexivity|reflexivity].
    cbn [result depth_]. rewrite <- R, <- List.app_assoc. reflexivity.
Qed.

Lemma tree_records_scalars_after_a_full_element_witness :
  drive vtable
        [ev_on_simple_string "PONG"; ev_on_simple_string "PONG"]
        {| result := result general.tree_after_a_reply; depth_ := 1 |}
  = ok {| result :=
            result general.tree_after_a_reply ++
            [ {| depth := 1; t := simple_string; expected_size := 1;
                 value := ["PONG"] |};
              {| depth := 1; t := simple_string; expected_size := 1;
                 value := ["PONG"] |} ];
          depth_ := 1 |}.
Proof.
  exact (tree_records_scalars_after_a_full_element
           [(simple_string, "PONG"); (simple_string, "PONG")]
           {| result := result general.tree_after_a_reply; depth_ := 1 |}
           [] {| depth := 1; t := array; expected_size := 1;
                 value := ["x"] |} eq_refl eq_refl).
Defined.

End TreeRuns.

(** ** The classes with a fixed capacity *)

Section FixedCapacity.

Import charconv resp resp.fixed_capacity.

Lemma assign_length {A : Type} (l : list A) (i : nat) (v : A) :
  List.length (assign l i v) = List.length l.
Proof.
  revert i. induction l as [|x l IH]; intros [|i]; cbn; try reflexivity.
  rewrite IH. reflexivity.
Qed.

Lemma assign_fill {A : Type} (l : list A) (i : nat) (r v : A) (vs : list A) :
  nth_error l i = Some r ->
  firstn (S i) (assign l i v) ++ vs
    ++ skipn (S i + List.length vs) (assign l i v)
  = firstn i l ++ (v :: vs) ++ skipn (i + S (List.length vs)) l.
Proof.
  revert i. induction l as [|x l IH]; intros [|i] H;
    try discriminate H.
  - reflexivity.
  - cbn [nth_error] in H.
    change (x :: (firstn (S i) (assign l i v) ++ vs
                  ++ skipn (S i + List.length vs) (assign l i v))
            = x :: (firstn i l ++ (v :: vs)
                    ++ skipn (i + S (List.length vs)) l)).
    rewrite (IH i H). reflexivity.
Qed.

Lemma nth_error_inside {A : Type} (l : list A) (i : nat) :
  (i < List.length l)%nat -> exists r, nth_error l i = Some r.
Proof.
  intro H. destruct (nth_error l i) as [r|] eqn:E; [exists r; reflexivity|].
  apply List.nth_error_None in E. lia.
Qed.

(** A class whose overridden members convert the body of a node in
    place at [i_] and advance [i_] fills the array from [i_] on. *)
Lemma fills_run {A : Type} (call_ : event -> state A -> outcome (state A))
                (T : element A) (ov : event -> bool)
                (past_the_end : outcome (state A)) :
  (forall e st,
      ov e = true ->
      call_ e st
      = match node_body e with
        | Some s =>
            match nth_error (result st) (i_ st) with
            | Some r =>
                match convert T s r with
                | ok v => returns {| result := assign (result st) (i_ st) v;
                                     i_ := S (i_ st) |}
                | throw x => raises x
                end
            | None => past_the_end
            end
        | None => returns st
        end) ->
  forall evs vs st,
    forallb ov evs = true ->
    converts_to T (node_bodies evs) vs ->
    (i_ st + List.length vs <= List.length (result st))%nat ->
    run call_ evs st
    = returns {| result := firstn (i_ st) (result st) ++ vs
                           ++ skipn (i_ st + List.length vs) (result st);
                 i_ := (i_ st + List.length vs)%nat |}.
Proof.
  intros Hc evs.
  induction evs as [|e evs IH]; intros vs st Hov Hvs Hlen.
  - cbn in Hvs. inversion Hvs. cbn [run List.length List.app].
    rewrite Nat.add_0_r, List.firstn_skipn. destruct st; reflexivity.
  - cbn [forallb] in Hov. apply andb_true_iff in Hov.
    destruct Hov as [He Hevs].
    cbn [run]. rewrite (Hc e st He).
    rewrite node_bodies_cons in Hvs.
    destruct (node_body e) as [s|]; cbn [List.app] in Hvs.
    + inversion Hvs as [|s' v ss vs' Hv Hrest]; subst.
      cbn [List.length] in Hlen.
      destruct (nth_error_inside (result st) (i_ st)) as [r Hr]; [lia|].
      rewrite Hr, Hv.
      rewrite (IH vs' _ Hevs Hrest).
      * cbn [result i_ List.length].
        rewrite (assign_fill _ _ r v vs' Hr), Nat.add_succ_r. reflexivity.
      * cbn [result i_]. rewrite assign_length. lia.
    + exact (IH vs st Hevs Hvs Hlen).
Qed.

Lemma static_array_call {A : Type} (T : element A) (e : event) (st : state A) :
  response_static_array.overrides e = true ->
  response_static_array.call_ T e st
  = match node_body e with
    | Some s =>
        match nth_error (result st) (i_ st) with
        | Some r =>
            match convert T s r with
            | ok v => returns {| result := assign (result st) (i_ st) v;
                                 i_ := S (i_ st) |}
            | throw x => raises x
            end
        | None => undefined
        end
    | None => returns st
    end.
Proof. intro H. destruct e; try discriminate H; reflexivity. Qed.

Lemma static_flat_map_call {A : Type} (T : element A) (e : event) (st : state A) :
  response_static_flat_map.overrides e = true ->
  response_static_flat_map.call_ T e st
  = match node_body e with
    | Some s =>
        match nth_error (result st) (i_ st) with
        | Some r =>
            match convert T s r with
            | ok v => returns {| result := assign (result st) (i_ st) v;
                                 i_ := S (i_ st) |}
            | throw x => raises x
            end
        | None => raises_out_of_range
        end
    | None => returns st
    end.
Proof. intro H. destruct e; try discriminate H; reflexivity. Qed.

Lemma run_app {S : Type} (call_ : event -> S -> outcome S)
              (a b : list event) (st st' : S) :
  run call_ a st = returns st' ->
  run call_ (a ++ b) st = run call_ b st'.
Proof.
  revert st. induction a as [|e a IH]; intros st H.
  - cbn in H. injection H as <-. reflexivity.
  - cbn [List.app run] in H |- *.
    destruct (call_ e st) as [st1| | |]; try discriminate H.
    exact (IH st1 H).
Qed.

(** X21.  [response_static_flat_map<T, N>] writes the converted bodies
    of blob strings and numbers into its array slot after slot, starting
    at [i_]: as long as they fit, the run returns with the values at
    the places [i_], [i_ + 1], ... in order of arrival and every other
    slot as it was.  It never writes outside the array: when the array
    is full, the next node raises [std::out_of_range], whatever
    follows. *)
Theorem static_flat_map_fills_then_raises
  {A : Type} (T : element A) (evs post : list event) (e : event) (s : string)
  (vs : list A) (st : state A) :
  forallb response_static_flat_map.overrides evs = true ->
  converts_to T (node_bodies evs) vs ->
  (i_ st + List.length vs <= List.length (result st))%nat ->
  response_static_flat_map.overrides e = true ->
  node_body e = Some s ->
  run (response_static_flat_map.call_ T) evs st
    = returns {| result := firstn (i_ st) (result st) ++ vs
                           ++ skipn (i_ st + List.length vs) (result st);
                 i_ := (i_ st + List.length vs)%nat |}
  /\ ((i_ st + List.length vs = List.length (result st))%nat ->
      run (response_static_flat_map.call_ T) (evs ++ e :: post) st
        = raises_out_of_range).
Proof.
  intros Hov Hvs Hlen He Hb.
  pose proof (fills_run _ T _ raises_out_of_range (static_flat_map_call T)
                evs vs st Hov Hvs Hlen) as Hrun.
  split; [exact Hrun|].
  intro Hfull. rewrite (run_app _ _ _ _ _ Hrun). cbn [run].
  rewrite (static_flat_map_call T e _ He), Hb. cbn [result i_].
  assert (Hn : nth_error (firstn (i_ st) (result st) ++ vs
                  ++ skipn (i_ st + List.length vs) (result st))
                 (i_ st + List.length vs) = None).
  { apply List.nth_error_None.
    rewrite !List.length_app, List.firstn_length_le, List.length_skipn by lia.
    lia. }
  rewrite Hn. reflexivity.
Qed.

Lemma static_flat_map_fills_then_raises_witness :
  run (response_static_flat_map.call_ std_string)
      [ev_select_push 2; ev_on_blob_string "k"; ev_on_number "1"]
      {| result := ["old"; "old"]; i_ := 0 |}
    = returns {| result := ["k"; "1"]; i_ := 2 |}
  /\ run (response_static_flat_map.call_ std_string)
         ([ev_select_push 2; ev_on_blob_string "k"; ev_on_number "1"]
          ++ ev_on_blob_string "x" :: [ev_pop])
         {| result := ["old"; "old"]; i_ := 0 |}
     = raises_out_of_range.
Proof.
  destruct (static_flat_map_fills_then_raises
              std_string
              [ev_select_push 2; ev_on_blob_string "k"; ev_on_number "1"]
              [ev_pop] (ev_on_blob_string "x") "x" ["k"; "1"]
              {| result := ["old"; "old"]; i_ := 0 |}
              eq_refl (converts_to_std_string _) (le_n 2) eq_refl eq_refl)
    as [H1 H2].
  split; [exact H1 | exact (H2 eq_refl)].
Defined.

(** X22.  [response_static_array<T, N>] writes the converted bodies of
    blob strings into its array slot after slot, starting at [i_]: as
    long as they fit, the run returns with the values at the places
    [i_], [i_ + 1], ... in order of arrival and every other slot as it
    was.  Nothing checks [i_] against [N]: when the array is full, the
    next blob string indexes it past its end, which C++ leaves
    undefined. *)
Theorem static_array_fills_then_overruns
  {A : Type} (T : element A) (evs post : list event) (s : string)
  (vs : list A) (st : state A) :
  forallb response_static_array.overrides evs = true ->
  converts_to T (node_bodies evs) vs ->
  (i_ st + List.length vs <= List.length (result st))%nat ->
  run (response_static_array.call_ T) evs st
    = returns {| result := firstn (i_ st) (result st) ++ vs
                           ++ skipn (i_ st + List.length vs) (result st);
                 i_ := (i_ st + List.length vs)%nat |}
  /\ ((i_ st + List.length vs = List.length (result st))%nat ->
      run (response_static_array.call_ T)
          (evs ++ ev_on_blob_string s :: post) st
        = undefined).
Proof.
  intros Hov Hvs Hlen.
  pose proof (fills_run _ T _ undefined (static_array_call T)
                evs vs st Hov Hvs Hlen) as Hrun.
  split; [exact Hrun|].
  intro Hfull. rewrite (run_app _ _ _ _ _ Hrun). cbn [run].
  rewrite (static_array_call T (ev_on_blob_string s) _ eq_refl).
  cbn [node_body result i_].
  assert (Hn : nth_error (firstn (i_ st) (result st) ++ vs
                  ++ skipn (i_ st + List.length vs) (result st))
                 (i_ st + List.length vs) = None).
  { apply List.nth_error_None.
    rewrite !List.length_app, List.firstn_length_le, List.length_skipn by lia.
    lia. }
  rewrite Hn. reflexivity.
Qed.

Lemma static_array_fills_then_overruns_witness :
  run (response_static_array.call_ (integral_element int (fun _ => 0)))
      general.array_int_calls {| result := [0; 0; 0]; i_ := 0 |}
    = returns {| result := [1; 2; 3]; i_ := 3 |}
  /\ run (response_static_array.call_ (integral_element int (fun _ => 0)))
         (general.array_int_calls ++ ev_on_blob_string "4" :: [])
         {| result := [0; 0; 0]; i_ := 0 |}
     = undefined.
Proof.
  destruct (static_array_fills_then_overruns
              (integral_element int (fun _ => 0))
              general.array_int_calls [] "4" [1; 2; 3]
              {| result := [0; 0; 0]; i_ := 0 |}
              eq_refl
              (converts_to_integral int (fun _ => 0) [1; 2; 3] eq_refl)
              (le_n 3))
    as [H1 H2].
  split; [exact H1 | exact (H2 eq_refl)].
Defined.

End FixedCapacity.

(** ** Elements of the tree adapter with a negative size *)

Section TreeNegativeSize.

Import resp resp.response_tree.

(** X23.  [add] compares the number of values of the last element with
    its expected size and starts a new element only when they are
    equal.  For a last element whose expected size is negative (the
    default of [elem] is -1, [result] is a public member, and
    [add_aggregate] appends the element before [reserve] raises) they
    never are: every scalar that follows, however many, goes into that
    element, and none is recorded as an element of its own. *)
Theorem tree_negative_size_takes_every_scalar
  (ss : list (type * string)) (st : state) (init : list elem) (back : elem) :
  result st = init ++ [back] ->
  expected_size back < 0 ->
  drive vtable (List.map (fun ts => scalar_event (fst ts) (snd ts)) ss) st
  = ok {| result := init ++ [ {| depth := depth back; t := t back;
                                 expected_size := expected_size back;
                                 value := value back ++ List.map snd ss |} ];
          depth_ := depth_ st |}.
Proof.
  revert st back.
  induction ss as [|[ty s] ss IH]; intros st back R N.
  - cbn [List.map drive]. rewrite List.app_nil_r.
    destruct st as [res d]. cbn [result depth_] in R |- *. rewrite R.
    destruct back; reflexivity.
  - cbn [List.map fst snd drive]. rewrite call_scalar_recorded.
    unfold add. rewrite R, unsnoc_app.
    destruct (Z.eqb_spec (Z.of_nat (List.length (value back)))
                         (expected_size back)) as [E|_]; [lia|].
    cbn [bind].
    erewrite IH; [|reflexivity|exact N].
    cbn [depth t expected_size value depth_].
    rewrite <- List.app_assoc. reflexivity.
Qed.

Lemma tree_negative_size_takes_every_scalar_witness :
  drive vtable
        [ev_on_blob_string "a"; ev_on_number "1"; ev_on_blob_string "b"]
        {| result := [ {| depth := 1; t := array; expected_size := -1;
                          value := [] |} ];
           depth_ := 1 |}
  = ok {| result := [ {| depth := 1; t := array; expected_size := -1;
                         value := ["a"; "1"; "b"] |} ];
          depth_ := 1 |}.
Proof.
  exact (tree_negative_size_takes_every_scalar
           [(blob_string, "a"); (number, "1"); (blob_string, "b")]
           {| result := [ {| depth := 1; t := array; expected_size := -1;
                             value := [] |} ];
              depth_ := 1 |}
           [] {| depth := 1; t := array; expected_size := -1; value := [] |}
           eq_refl eq_refl).
Defined.

End TreeNegativeSize.
